(** * Fava price map: a shallow embedding of [fava/beans/prices.py]

    The development follows the Python module top-down: the bisect adapter
    [DateKeyWrapper], the generator [_keep_last_per_day], the constructor of
    [FavaPriceMap] and its four query methods.  Python exceptions are made
    explicit through the [result] monad; the self-recursion of
    [get_price_point] is bounded by a call-depth budget. *)

From Stdlib Require Import ZArith QArith Strings.String Strings.Ascii Lia.
From stdpp Require Import base option list sorting strings gmap fin_maps.

Local Close Scope Q_scope.
Local Open Scope Z_scope.
Local Open Scope nat_scope.

(** ** Python values used by the module *)

(** A currency code is a [str]. *)
Abbreviation Currency := string.

(** [BaseQuote = tuple[str, str]]. *)
Abbreviation BaseQuote := (string * string)%type.

(** A [datetime.date], identified with its proleptic Gregorian ordinal
    ([date.toordinal()]); the comparisons of dates are those of ordinals. *)
Abbreviation date := Z.

(** The exceptions that the list and iterator accesses of the module can raise. *)
Inductive exn : Type :=
  | IndexError     (* [l[k]] out of range *)
  | RuntimeError.  (* [StopIteration] escaping a generator body (PEP 479) *)

(** Outcome of a call: a value, a raised exception, or the exhaustion of the
    budget that bounds loops and recursion in this embedding. *)
Inductive result (A : Type) : Type :=
  | Ok (a : A)
  | Raise (e : exn)
  | OutOfFuel.
Arguments Ok {A} a.
Arguments Raise {A} e.
Arguments OutOfFuel {A}.

Definition result_bind {A B} (f : A → result B) (r : result A) : result B :=
  match r with
  | Ok a => f a
  | Raise e => Raise e
  | OutOfFuel => OutOfFuel
  end.

#[export] Instance result_ret : MRet result := λ A a, Ok a.
#[export] Instance result_mbind : MBind result := λ A B f r, result_bind f r.

(** [l[k]] for a non-negative index [k]. *)
Definition list_getitem {A} (l : list A) (k : nat) : result A :=
  match l !! k with
  | Some x => Ok x
  | None => Raise IndexError
  end.

(** [l[-1]]. *)
Definition list_getitem_last {A} (l : list A) : result A :=
  match last l with
  | Some x => Ok x
  | None => Raise IndexError
  end.

(** Order of [tuple[str, str]]: the first differing component decides. *)
Definition tuple_leb (p q : BaseQuote) : bool :=
  match String.compare p.1 q.1 with
  | Lt => true
  | Gt => false
  | Eq => String.leb p.2 q.2
  end.

Definition tuple_le (p q : BaseQuote) : Prop := tuple_leb p q = true.

#[export] Instance tuple_le_dec p q : Decision (tuple_le p q).
Proof. unfold tuple_le. apply _. Defined.

(** The builtin [sorted] on a list of pairs: a stable merge sort by [tuple_le]. *)
Definition sorted (l : list BaseQuote) : list BaseQuote := merge_sort tuple_le l.

(** ** The module, generic in [decimal.Decimal]

    The module uses of [Decimal] the constants [ZERO = Decimal()] and
    [ONE = Decimal(1)], the comparison [rate != ZERO] and the division
    [ONE / rate]; they are taken as total operations on the rates that
    observations carry.  This leaves out the rates on which [Decimal] itself
    raises under the default context: a signalling NaN in the comparison
    ([InvalidOperation]) and a rate whose inverse leaves the exponent range
    ([Overflow]).  The results below are about instances that the
    constructor has returned. *)
Class DecimalOps (Decimal : Type) : Type := {
  ZERO : Decimal;
  ONE : Decimal;
  dec_eqb : Decimal → Decimal → bool;
  dec_div : Decimal → Decimal → Decimal
}.

Section Prices.

Context {Decimal : Type} {decimal_ops : DecimalOps Decimal}.

(** [PricePoint = tuple[datetime.date, Decimal]]. *)
Abbreviation PricePoint := (date * Decimal)%type.

(** [fava.beans.abc.Amount] and [fava.beans.abc.Price], with the attributes
    read by the constructor. *)
Record Amount : Type := mkAmount {
  number : Decimal;
  amount_currency : Currency
}.

Record Price : Type := mkPrice {
  price_date : date;
  price_currency : Currency;
  price_amount : Amount
}.

(** *** DateKeyWrapper *)

Record DateKeyWrapper : Type := mkDateKeyWrapper { inner : list PricePoint }.

Definition DateKeyWrapper_len (self : DateKeyWrapper) : nat :=
  length (inner self).

Definition DateKeyWrapper_getitem (self : DateKeyWrapper) (k : nat) : result date :=
  p ← list_getitem (inner self) k; Ok p.1.

(** [bisect.bisect(a, x)], that is [bisect_right] with [lo = 0],
    [hi = len(a)]:
<<
    while lo < hi:
        mid = (lo + hi) // 2
        if x < a[mid]: hi = mid
        else: lo = mid + 1
    return lo
>> *)
Fixpoint bisect_loop (fuel : nat) (a : DateKeyWrapper) (x : date)
    (lo hi : nat) : result nat :=
  if lo <? hi then
    match fuel with
    | O => OutOfFuel
    | S fuel' =>
        let mid := (lo + hi) `div` 2 in
        a_mid ← DateKeyWrapper_getitem a mid;
        if (x <? a_mid)%Z then bisect_loop fuel' a x lo mid
        else bisect_loop fuel' a x (mid + 1) hi
    end
  else Ok lo.

Definition bisect (a : DateKeyWrapper) (x : date) : result nat :=
  bisect_loop (DateKeyWrapper_len a) a x 0 (DateKeyWrapper_len a).

(** *** _keep_last_per_day *)

(** The [for] loop of the generator, with the current [last]; the result is
    the sequence of yielded values. *)
Fixpoint keep_last_loop (last : PricePoint) (prices_iter : list PricePoint)
    : list PricePoint :=
  match prices_iter with
  | [] => [last]
  | price :: rest =>
      if (price.1 >? last.1)%Z then last :: keep_last_loop price rest
      else keep_last_loop price rest
  end.

(** [list(_keep_last_per_day(prices))]; [next] on an empty iterator raises in
    the generator body. *)
Definition _keep_last_per_day (prices : list PricePoint)
    : result (list PricePoint) :=
  match prices with
  | [] => Raise RuntimeError
  | last :: prices_iter => Ok (keep_last_loop last prices_iter)
  end.

(** *** FavaPriceMap *)

(** The attributes of an instance.  [_currencies] is a [set]; it is kept as
    the duplicate-free list in which the set is iterated. *)
Record FavaPriceMap : Type := mkFavaPriceMap {
  _currencies : list Currency;
  _forward_pairs : list BaseQuote;
  _map : gmap BaseQuote (list PricePoint)
}.

(** [raw_map[k].append(v)] on a [defaultdict(list)]. *)
Definition defaultdict_append (raw_map : gmap BaseQuote (list PricePoint))
    (k : BaseQuote) (v : PricePoint) : gmap BaseQuote (list PricePoint) :=
  <[k := default [] (raw_map !! k) ++ [v]]> raw_map.

(** A [Counter] keyed by pairs, as the association list of its items in
    insertion order. *)
Fixpoint Counter_get (counts : list (BaseQuote * nat)) (k : BaseQuote) : nat :=
  match counts with
  | [] => 0
  | (k', n) :: rest => if bool_decide (k' = k) then n else Counter_get rest k
  end.

(** [counts[k] += 1]. *)
Fixpoint Counter_incr (counts : list (BaseQuote * nat)) (k : BaseQuote)
    : list (BaseQuote * nat) :=
  match counts with
  | [] => [(k, 1)]
  | (k', n) :: rest =>
      if bool_decide (k' = k) then (k', n + 1) :: rest
      else (k', n) :: Counter_incr rest k
  end.

(** [s.add(x)] on a set kept in first-insertion order. *)
Definition set_add (s : list Currency) (x : Currency) : list Currency :=
  if bool_decide (x ∈ s) then s else s ++ [x].

(** The local state of the ingestion loop of [__init__]. *)
Record ingest_state : Type := mkIngest {
  st_raw_map : gmap BaseQuote (list PricePoint);
  st_counts : list (BaseQuote * nat);
  st_currencies : list Currency
}.

Definition ingest_start : ingest_state := mkIngest ∅ [] [].

(** One iteration of [for price in price_entries]. *)
Definition ingest (st : ingest_state) (price : Price) : ingest_state :=
  let currencies :=
    set_add (set_add (st_currencies st) (price_currency price))
            (amount_currency (price_amount price)) in
  let rate := number (price_amount price) in
  let base_quote := (price_currency price, amount_currency (price_amount price)) in
  let raw_map :=
    defaultdict_append (st_raw_map st) base_quote (price_date price, rate) in
  let counts := Counter_incr (st_counts st) base_quote in
  let raw_map :=
    if negb (dec_eqb rate ZERO) then
      defaultdict_append raw_map
        (amount_currency (price_amount price), price_currency price)
        (price_date price, dec_div ONE rate)
    else raw_map in
  mkIngest raw_map counts currencies.

(** The comprehension [[(base, quote) for (base, quote), count in
    counts.items() if counts.get((quote, base), 0) < count]]. *)
Definition forward_pairs_of (counts : list (BaseQuote * nat)) : list BaseQuote :=
  omap (λ item : BaseQuote * nat,
          let '((base, quote), count) := item in
          if Counter_get counts (quote, base) <? count then Some (base, quote)
          else None)
       counts.

(** The comprehension [{k: list(_keep_last_per_day(rates)) for k, rates in
    raw_map.items()}]. *)
Definition collapse_all (raw_map : gmap BaseQuote (list PricePoint))
    : result (gmap BaseQuote (list PricePoint)) :=
  map_fold (λ k rates acc,
              m ← acc;
              l ← _keep_last_per_day rates;
              Ok (<[k := l]> m))
           (Ok ∅) raw_map.

(** [FavaPriceMap.__init__]. *)
Definition FavaPriceMap_init (price_entries : list Price) : result FavaPriceMap :=
  let st := foldl ingest ingest_start price_entries in
  let forward_pairs := forward_pairs_of (st_counts st) in
  m ← collapse_all (st_raw_map st);
  Ok (mkFavaPriceMap (st_currencies st) forward_pairs m).

(** [FavaPriceMap.commodity_pairs]. *)
Definition commodity_pairs (self : FavaPriceMap)
    (operating_currencies : list Currency) : list BaseQuote :=
  let forward_pairs := _forward_pairs self in
  let extra_operating_pairs :=
    foldl (λ extra (bq : BaseQuote),
             let '(base, quote) := bq in
             if bool_decide (base ∈ operating_currencies)
                && bool_decide (quote ∈ operating_currencies)
             then extra ++ [(quote, base)] else extra)
          [] forward_pairs in
  sorted (forward_pairs ++ extra_operating_pairs).

(** [FavaPriceMap.get_all_prices]. *)
Definition get_all_prices (self : FavaPriceMap) (base_quote : BaseQuote)
    : option (list PricePoint) :=
  _map self !! base_quote.

(** The value returned by [get_price_point]: a stored point [(date, rate)],
    the identity [(None, ONE)] or the no-data pair [(None, None)]. *)
Abbreviation PointResult := (option date * option Decimal)%type.

Definition found (p : PricePoint) : PointResult := (Some p.1, Some p.2).
Definition no_data : PointResult := (None, None).

(** The loop [for currency in self._currencies] of [get_price_point]; [recur]
    is the method itself, for the recursive calls. *)
Fixpoint via_currencies
    (recur : BaseQuote → option date → result PointResult)
    (self : FavaPriceMap) (base quote : Currency) (date : option date)
    (currencies : list Currency) : result PointResult :=
  match currencies with
  | [] => Ok no_data
  | currency :: rest =>
      if String.eqb currency base || String.eqb currency quote then
        via_currencies recur self base quote date rest
      else
        match _map self !! (base, currency), _map self !! (currency, quote) with
        | Some price_list1, Some price_list2 =>
            match date with
            | None =>
                p1 ← list_getitem_last price_list1;
                p2 ← list_getitem_last price_list2;
                let date1 := p1.1 in
                let date2 := p2.1 in
                if (date1 <? date2)%Z then recur (currency, quote) (Some date1)
                else recur (base, currency) (Some date2)
            | Some d =>
                index ← bisect (mkDateKeyWrapper price_list1) d;
                if index =? 0 then Ok no_data
                else
                  p ← list_getitem price_list1 (index - 1);
                  recur (currency, quote) (Some p.1)
            end
        | _, _ => via_currencies recur self base quote date rest
        end
  end.

(** [FavaPriceMap.get_price_point]; [depth] bounds the nesting of calls. *)
Fixpoint get_price_point (depth : nat) (self : FavaPriceMap)
    (base_quote : BaseQuote) (date : option date) : result PointResult :=
  match depth with
  | O => OutOfFuel
  | S depth' =>
      let '(base, quote) := base_quote in
      if String.eqb base quote then Ok (None, Some ONE)
      else
        match _map self !! base_quote with
        | Some price_list =>
            match date with
            | None => p ← list_getitem_last price_list; Ok (found p)
            | Some d =>
                index ← bisect (mkDateKeyWrapper price_list) d;
                if index =? 0 then Ok no_data
                else p ← list_getitem price_list (index - 1); Ok (found p)
            end
        | None =>
            via_currencies (get_price_point depth' self) self base quote date
              (_currencies self)
        end
  end.

(** [FavaPriceMap.get_price]. *)
Definition get_price (depth : nat) (self : FavaPriceMap)
    (base_quote : BaseQuote) (date : option date) : result (option Decimal) :=
  p ← get_price_point depth self base_quote date; Ok p.2.


(** An instance as the constructor may leave it for [price_entries]: the
    dictionaries are determined, the iteration order of the set
    [_currencies] is not. *)
Definition constructed (price_entries : list Price) (self : FavaPriceMap) : Prop :=
  ∃ pm, FavaPriceMap_init price_entries = Ok pm
        ∧ _map self = _map pm
        ∧ _forward_pairs self = _forward_pairs pm
        ∧ _currencies self ≡ₚ _currencies pm.

(** The pair an observation is recorded for. *)
Definition price_pair (price : Price) : BaseQuote :=
  (price_currency price, amount_currency (price_amount price)).

(** The points one observation appends to the raw series of [k]: its own rate
    when it is an observation of [k], then the inverse rate when it is an
    observation of the reverse pair with a non-zero rate. *)
Definition points_of (k : BaseQuote) (price : Price) : list PricePoint :=
  (if bool_decide (price_pair price = k)
   then [(price_date price, number (price_amount price))] else [])
  ++
  (if negb (dec_eqb (number (price_amount price)) ZERO)
      && bool_decide ((amount_currency (price_amount price), price_currency price) = k)
   then [(price_date price, dec_div ONE (number (price_amount price)))] else []).

(** All points ingested for [k], in ingestion order. *)
Definition ingested (price_entries : list Price) (k : BaseQuote) : list PricePoint :=
  price_entries ≫= points_of k.

(** The number of observations recorded for [k] itself. *)
Definition observation_count (price_entries : list Price) (k : BaseQuote) : nat :=
  length (filter (λ price, price_pair price = k) price_entries).

(** The observation stream is ordered by date. *)
Definition date_ascending (price_entries : list Price) : Prop :=
  StronglySorted Z.le (price_date <$> price_entries).

(** The points of a series dated [d]. *)
Definition on_date (d : date) (l : list PricePoint) : list PricePoint :=
  filter (λ p, p.1 = d) l.

(** A dictionary entry for a series: absent when nothing was appended. *)
Definition series_entry (l : list PricePoint) : option (list PricePoint) :=
  match l with
  | [] => None
  | _ :: _ => Some l
  end.

(** The series stored for the raw points [l] of a pair: none when nothing
    was ingested, the yield of the generator otherwise. *)
Definition stored_series (l : list PricePoint) : option (list PricePoint) :=
  match l with
  | [] => None
  | last :: prices_iter => Some (keep_last_loop last prices_iter)
  end.

(** A returned pair is either the no-data pair or a stored point. *)
Definition point_or_no_data (v : PointResult) : Prop :=
  v = no_data ∨ ∃ p : PricePoint, v = found p.

(** Every stored series holds at least one point. *)
Definition series_nonempty (self : FavaPriceMap) : Prop :=
  ∀ k l, _map self !! k = Some l → l ≠ [].

(** The recursive calls of the loop are made on pairs of distinct currencies
    that have a stored series. *)
Definition direct_pair (self : FavaPriceMap) (bq : BaseQuote) : Prop :=
  bq.1 ≠ bq.2 ∧ is_Some (_map self !! bq).

(** The reverse of a pair. *)
Definition reversed (bq : BaseQuote) : BaseQuote := (bq.2, bq.1).

(** Both currencies of the pair are operating currencies. *)
Definition both_operating (operating_currencies : list Currency)
    (bq : BaseQuote) : Prop :=
  bq.1 ∈ operating_currencies ∧ bq.2 ∈ operating_currencies.

(** The point with the inverse rate. *)
Definition inverse_point (p : PricePoint) : PricePoint := (p.1, dec_div ONE p.2).

End Prices.

(** ** Instances with exact rational rates

    The rates below are finite decimals whose inverses are finite decimals
    too, so that [ONE / rate] is exact. *)

#[export] Instance Q_DecimalOps : DecimalOps Q := {
  ZERO := 0%Q;
  ONE := 1%Q;
  dec_eqb := Qeq_bool;
  dec_div := Qdiv
}.

(** The observation [date price currency rate quote]. *)
Definition observation (d : date) (currency : Currency) (rate : Q)
    (quote : Currency) : Price :=
  mkPrice d currency (mkAmount rate quote).

(** The instance the constructor returns, with the set iterated in insertion
    order; the empty instance stands for a raised exception. *)
Definition index_of (price_entries : list (@Price Q)) : @FavaPriceMap Q :=
  match FavaPriceMap_init price_entries with
  | Ok pm => pm
  | _ => mkFavaPriceMap [] [] ∅
  end.

(** Two legs through [C], the second one observed first. *)
Definition legs_stream : list Price :=
  [observation 1 "C" 4 "B"; observation 3 "A" 2 "C"].

(** Two legs through [C] observed on the same day. *)
Definition same_day_legs_stream : list Price :=
  [observation 1 "A" 2 "C"; observation 1 "C" 4 "B"].

(** The same pair observed once in each direction. *)
Definition tie_stream : list Price :=
  [observation 1 "USD" 2 "EUR"; observation 2 "EUR" (1 # 2) "USD"].

(** Two observations of one pair on one day. *)
Definition same_day_stream : list Price :=
  [observation 1 "A" 2 "B"; observation 1 "A" 4 "B"].

(** A stream that is not ordered by date. *)
Definition unordered_stream : list Price :=
  [observation 5 "A" 1 "B"; observation 7 "A" 1 "B"; observation 3 "A" 1 "B"].


(** Two legs through [C], the second one only observed after the first. *)
Definition stale_leg_stream : list Price :=
  [observation 1 "A" 2 "C"; observation 3 "C" 4 "B"].

(** Three observations of one pair on increasing dates. *)
Definition three_day_stream : list Price :=
  [observation 10 "USD" 2 "EUR"; observation 20 "USD" 4 "EUR";
   observation 30 "USD" 5 "EUR"].

(** ** The request helpers of [fava/application.py]

    Flask's request, its URL map and the application context are inputs of
    the two functions below; a [MultiDict] is the map from a key to the list
    of its values. *)

(** The loop of [jump] over [request.args.lists()], on the query dictionary
    [qs_dict] decoded from the referrer:
<<
    for key, values in request.args.lists():
        if values == [""]:
            try: del qs_dict[key]
            except KeyError: pass
        else:
            qs_dict.setlist(key, values)
>> *)
Definition jump_qs_dict (qs_dict : gmap string (list string))
    (args_lists : list (string * list string)) : gmap string (list string) :=
  foldl (λ qs_dict (item : string * list string),
           let '(key, values) := item in
           if bool_decide (values = [""%string]) then delete key qs_dict
           else <[key := values]> qs_dict)
        qs_dict args_lists.

(** The names copied from the request by [_inject_filters]. *)
Definition filter_names : list string :=
  ["conversion"; "interval"; "account"; "filter"; "time"]%string.

(** [_inject_filters(endpoint, values)], returning the updated [values].
    [expecting_bfile endpoint] is
    [app.url_map.is_endpoint_expecting(endpoint, "bfile")], [slug] is
    [g.beancount_file_slug] and [request_args name] is
    [request.args.get(name)]. *)
Definition _inject_filters (expecting_bfile : string → bool)
    (slug : option string) (request_args : gmap string string)
    (endpoint : string) (values : gmap string string) : gmap string string :=
  let values :=
    if bool_decide (values !! "bfile"%string = None) && expecting_bfile endpoint
    then match slug with
         | Some s => <["bfile"%string := s]> values
         | None => values
         end
    else values in
  if bool_decide (endpoint ∈ ["static"; "index"]%string) then values
  else
    foldl (λ values name,
             if bool_decide (values !! name = None) then
               match request_args !! name with
               | Some val => <[name := val]> values
               | None => values
               end
             else values)
          values filter_names.

(** * Results *)

Section PricesFacts.

Context {Decimal : Type} {decimal_ops : DecimalOps Decimal}.

Local Abbreviation PricePoint := (date * Decimal)%type.
Local Abbreviation PointResult := (option date * option Decimal)%type.
Local Abbreviation Price := (@Price Decimal).
Local Abbreviation DateKeyWrapper := (@DateKeyWrapper Decimal).
Local Abbreviation FavaPriceMap := (@FavaPriceMap Decimal).

(** ** Results on the helper functions *)

Lemma bind_Ok {A B} (x : A) (f : A → result B) : (Ok x ≫= f) = f x.
Proof. reflexivity. Qed.

Section bisect_facts.

Variable a : DateKeyWrapper.
Variable x : date.

Lemma getitem_in_range k :
  k < DateKeyWrapper_len a →
  ∃ p, inner a !! k = Some p ∧ DateKeyWrapper_getitem a k = Ok p.1.
Proof.
  unfold DateKeyWrapper_len, DateKeyWrapper_getitem, list_getitem. intros Hk.
  destruct (lookup_lt_is_Some_2 (inner a) k Hk) as [p Hp].
  exists p. by rewrite Hp.
Qed.

Lemma bisect_loop_O lo hi :
  bisect_loop 0 a x lo hi = if lo <? hi then OutOfFuel else Ok lo.
Proof. reflexivity. Qed.

Lemma bisect_loop_S fuel lo hi :
  bisect_loop (S fuel) a x lo hi =
  if lo <? hi then
    a_mid ← DateKeyWrapper_getitem a ((lo + hi) `div` 2);
    if (x <? a_mid)%Z then bisect_loop fuel a x lo ((lo + hi) `div` 2)
    else bisect_loop fuel a x ((lo + hi) `div` 2 + 1) hi
  else Ok lo.
Proof. reflexivity. Qed.

Lemma midpoint_bounds lo hi :
  lo < hi → lo ≤ (lo + hi) `div` 2 ∧ (lo + hi) `div` 2 < hi.
Proof.
  intros Hlt.
  pose proof (Nat.div_mod_eq (lo + hi) 2) as Hd.
  pose proof (Nat.mod_upper_bound (lo + hi) 2) as Hm.
  lia.
Qed.

(** The loop finishes within [hi - lo] iterations, never reads out of range,
    and returns an index between [lo] and [hi]. *)
Lemma bisect_loop_returns fuel : ∀ lo hi,
  lo ≤ hi → hi ≤ DateKeyWrapper_len a → hi - lo ≤ fuel →
  ∃ k, bisect_loop fuel a x lo hi = Ok k ∧ lo ≤ k ≤ hi.
Proof.
  induction fuel as [|fuel IH]; intros lo hi Hle Hlen Hfuel.
  - assert (lo = hi) as -> by lia. rewrite bisect_loop_O.
    rewrite (proj2 (Nat.ltb_ge hi hi)) by lia. exists hi. split; [done | lia].
  - rewrite bisect_loop_S.
    destruct (lo <? hi) eqn:Hlt; [| exists lo; split; [done | lia]].
    apply Nat.ltb_lt in Hlt.
    destruct (midpoint_bounds lo hi Hlt) as [Hm1 Hm2].
    destruct (getitem_in_range ((lo + hi) `div` 2)) as (p & _ & ->); [lia |].
    rewrite bind_Ok. destruct (x <? p.1)%Z.
    + destruct (IH lo ((lo + hi) `div` 2)) as (k & -> & Hk); [lia.. |].
      exists k. split; [done | lia].
    + destruct (IH ((lo + hi) `div` 2 + 1) hi) as (k & -> & Hk); [lia.. |].
      exists k. split; [done | lia].
Qed.

Lemma bisect_returns :
  ∃ k, bisect a x = Ok k ∧ k ≤ DateKeyWrapper_len a.
Proof.
  destruct (bisect_loop_returns (DateKeyWrapper_len a) 0 (DateKeyWrapper_len a))
    as (k & Hk & Hb); [lia.. |].
  exists k. split; [done | lia].
Qed.

(** When every date of the series is after [x], the search ends at [lo]. *)
Lemma bisect_loop_all_later fuel : ∀ lo hi,
  (∀ i p, inner a !! i = Some p → (x < p.1)%Z) →
  lo ≤ hi → hi ≤ DateKeyWrapper_len a → hi - lo ≤ fuel →
  bisect_loop fuel a x lo hi = Ok lo.
Proof.
  induction fuel as [|fuel IH]; intros lo hi Hall Hle Hlen Hfuel.
  - assert (lo = hi) as -> by lia. rewrite bisect_loop_O.
    by rewrite (proj2 (Nat.ltb_ge hi hi)) by lia.
  - rewrite bisect_loop_S. destruct (lo <? hi) eqn:Hlt; [| done].
    apply Nat.ltb_lt in Hlt.
    destruct (midpoint_bounds lo hi Hlt) as [Hm1 Hm2].
    destruct (getitem_in_range ((lo + hi) `div` 2)) as (p & Hp & ->); [lia |].
    rewrite bind_Ok. rewrite (proj2 (Z.ltb_lt x p.1)) by eauto.
    apply IH; [done | lia..].
Qed.

(** On a series with non-decreasing dates the loop keeps: everything left of
    [lo] is dated at most [x], everything from [hi] on is dated after [x]. *)
Lemma bisect_loop_partition fuel : ∀ lo hi,
  (∀ i j p q, i ≤ j → inner a !! i = Some p → inner a !! j = Some q →
              (p.1 ≤ q.1)%Z) →
  (∀ i p, i < lo → inner a !! i = Some p → (p.1 ≤ x)%Z) →
  (∀ i p, hi ≤ i → inner a !! i = Some p → (x < p.1)%Z) →
  lo ≤ hi → hi ≤ DateKeyWrapper_len a → hi - lo ≤ fuel →
  ∃ k, bisect_loop fuel a x lo hi = Ok k
       ∧ (∀ i p, i < k → inner a !! i = Some p → (p.1 ≤ x)%Z)
       ∧ (∀ i p, k ≤ i → inner a !! i = Some p → (x < p.1)%Z).
Proof.
  induction fuel as [|fuel IH]; intros lo hi Hmono Hlo Hhi Hle Hlen Hfuel.
  - assert (lo = hi) as -> by lia. rewrite bisect_loop_O.
    rewrite (proj2 (Nat.ltb_ge hi hi)) by lia. eauto.
  - rewrite bisect_loop_S. destruct (lo <? hi) eqn:Hlt.
    2: { apply Nat.ltb_ge in Hlt. assert (lo = hi) as -> by lia. eauto. }
    apply Nat.ltb_lt in Hlt.
    destruct (midpoint_bounds lo hi Hlt) as [Hm1 Hm2].
    destruct (getitem_in_range ((lo + hi) `div` 2)) as (p & Hp & ->); [lia |].
    rewrite bind_Ok. destruct (x <? p.1)%Z eqn:Hx.
    + apply Z.ltb_lt in Hx. apply IH; [done | done | | lia..].
      intros i q Hi Hq. specialize (Hmono _ _ _ _ Hi Hp Hq). lia.
    + apply Z.ltb_ge in Hx. apply IH; [done | | done | lia..].
      intros i q Hi Hq.
      assert (i ≤ (lo + hi) `div` 2) as Hi' by lia.
      specialize (Hmono _ _ _ _ Hi' Hq Hp). lia.
Qed.

End bisect_facts.

Section keep_last_facts.

Lemma keep_last_loop_nonempty (last : PricePoint) rest :
  keep_last_loop last rest ≠ [].
Proof.
  revert last. induction rest as [|price rest IH]; intros last; simpl; [done |].
  destruct (price.1 >? last.1)%Z; [done | apply IH].
Qed.

(** Every yielded point is one of the points read. *)
Lemma keep_last_loop_elem_of (last : PricePoint) rest p :
  p ∈ keep_last_loop last rest → p ∈ last :: rest.
Proof.
  revert last. induction rest as [|price rest IH]; intros last; simpl; [done |].
  destruct (price.1 >? last.1)%Z; intros H.
  - apply elem_of_cons in H as [-> | H]; [by left |].
    right. by apply IH.
  - right. by apply IH.
Qed.

(** The generator ends with the last point read. *)
Lemma keep_last_loop_last (last0 : PricePoint) rest :
  last (keep_last_loop last0 rest) = last (last0 :: rest).
Proof.
  revert last0. induction rest as [|price rest IH]; intros last0; simpl; [done |].
  destruct (price.1 >? last0.1)%Z.
  - rewrite last_cons, IH.
    destruct (last (price :: rest)) eqn:E; [done |]. by apply last_None in E.
  - apply IH.
Qed.

(** On input ordered by date, the yielded dates increase strictly. *)
Lemma keep_last_loop_increasing (last : PricePoint) rest :
  StronglySorted Z.le ((last :: rest).*1) →
  StronglySorted Z.lt ((keep_last_loop last rest).*1).
Proof.
  revert last. induction rest as [|price rest IH]; intros last Hs; simpl.
  - repeat constructor.
  - apply StronglySorted_inv in Hs as [Hs Hall].
    destruct (price.1 >? last.1)%Z eqn:Hgt; [| by apply IH].
    apply Z.gtb_lt in Hgt. simpl. constructor; [by apply IH |].
    apply Forall_forall. intros d Hd.
    apply list_elem_of_fmap in Hd as (p & -> & Hp).
    apply keep_last_loop_elem_of in Hp.
    apply elem_of_cons in Hp as [-> | Hp]; [done |].
    apply StronglySorted_inv in Hs as [_ Hall'].
    rewrite Forall_forall in Hall'.
    specialize (Hall' p.1 (list_elem_of_fmap_2 fst _ _ Hp)). lia.
Qed.

(** On input ordered by date, the yielded points dated [d] are exactly the
    last point read for [d], when there is one. *)
Lemma keep_last_loop_on_date d (last0 : PricePoint) rest :
  StronglySorted Z.le ((last0 :: rest).*1) →
  on_date d (keep_last_loop last0 rest)
  = option_list (last (on_date d (last0 :: rest))).
Proof.
  unfold on_date.
  revert last0. induction rest as [|price rest IH]; intros last0 Hs.
  - simpl. rewrite filter_cons, filter_nil. by destruct (decide (last0.1 = d)).
  - apply StronglySorted_inv in Hs as [Hs Hall]. simpl.
    rewrite (filter_cons _ last0 (price :: rest)).
    destruct (price.1 >? last0.1)%Z eqn:Hgt.
    + apply Z.gtb_lt in Hgt. rewrite filter_cons, (IH _ Hs).
      destruct (decide (last0.1 = d)) as [Hd | Hd]; [| done].
      assert (filter (λ p : PricePoint, p.1 = d) (price :: rest) = []) as ->; [| done].
      apply elem_of_nil_inv. intros p Hp.
      apply list_elem_of_filter in Hp as [Hpd Hp].
      assert (price.1 ≤ p.1)%Z; [| lia].
      apply elem_of_cons in Hp as [-> | Hp]; [lia |].
      apply StronglySorted_inv in Hs as [_ Hall'].
      rewrite Forall_forall in Hall'.
      apply (Hall' p.1 (list_elem_of_fmap_2 fst _ _ Hp)).
    + rewrite (IH _ Hs).
      destruct (decide (last0.1 = d)) as [Hd | Hd]; [| done].
      f_equal. apply Forall_cons in Hall as [Hle _].
      rewrite Z.gtb_ltb in Hgt. apply Z.ltb_ge in Hgt.
      rewrite filter_cons_True by (simpl in *; lia).
      by rewrite last_cons_cons.
Qed.

End keep_last_facts.

(** ** Results on the constructor *)

Section ingest_facts.

Lemma series_entry_default (l : list PricePoint) :
  default [] (series_entry l) = l.
Proof. by destruct l. Qed.

Lemma series_entry_snoc (l : list PricePoint) p :
  series_entry (l ++ [p]) = Some (l ++ [p]).
Proof. by destruct l. Qed.

Lemma defaultdict_append_lookup
    (raw_map : gmap BaseQuote (list PricePoint)) k v k' :
  defaultdict_append raw_map k v !! k' =
  if decide (k = k') then Some (default [] (raw_map !! k) ++ [v])
  else raw_map !! k'.
Proof. unfold defaultdict_append. apply lookup_insert. Qed.

Lemma defaultdict_append_entry
    (raw_map : gmap BaseQuote (list PricePoint)) l k v k' :
  raw_map !! k' = series_entry l →
  defaultdict_append raw_map k v !! k' =
  series_entry (l ++ if bool_decide (k = k') then [v] else []).
Proof.
  intros Hl. rewrite defaultdict_append_lookup.
  case_bool_decide as Hk; [subst k' |].
  - rewrite decide_True by done.
    by rewrite Hl, series_entry_default, series_entry_snoc.
  - rewrite decide_False by done. by rewrite app_nil_r.
Qed.

Lemma ingest_raw_map st price l k :
  st_raw_map st !! k = series_entry l →
  st_raw_map (ingest st price) !! k = series_entry (l ++ points_of k price).
Proof.
  intros Hl. unfold ingest, points_of, price_pair. simpl.
  destruct (dec_eqb (number (price_amount price)) ZERO); simpl.
  - rewrite app_nil_r. by apply defaultdict_append_entry.
  - rewrite app_assoc.
    by apply defaultdict_append_entry, defaultdict_append_entry.
Qed.

Lemma ingested_cons price price_entries k :
  ingested (price :: price_entries) k
  = points_of k price ++ ingested price_entries k.
Proof. reflexivity. Qed.

Lemma foldl_ingest_raw_map price_entries : ∀ st (acc : BaseQuote → list PricePoint),
  (∀ k, st_raw_map st !! k = series_entry (acc k)) →
  ∀ k, st_raw_map (foldl ingest st price_entries) !! k
       = series_entry (acc k ++ ingested price_entries k).
Proof.
  induction price_entries as [|price price_entries IH]; intros st acc Hacc k.
  - unfold ingested. simpl. by rewrite app_nil_r.
  - rewrite ingested_cons, app_assoc. cbn [foldl].
    apply (IH (ingest st price) (λ k, acc k ++ points_of k price)).
    intros k'. by apply ingest_raw_map.
Qed.

(** The raw series of [k] after ingestion is the list of points ingested
    for [k]; a pair nothing was ingested for has no entry. *)
Lemma raw_map_lookup price_entries k :
  st_raw_map (foldl ingest ingest_start price_entries) !! k
  = series_entry (ingested price_entries k).
Proof.
  apply (foldl_ingest_raw_map price_entries ingest_start (λ _, [])).
  intros k'. apply lookup_empty.
Qed.

Lemma points_of_date k price p :
  p ∈ points_of k price → p.1 = price_date price.
Proof.
  unfold points_of. intros Hp. apply elem_of_app in Hp as [Hp | Hp].
  - case_bool_decide; [| by apply elem_of_nil in Hp].
    by apply list_elem_of_singleton in Hp as ->.
  - destruct (_ && _); [| by apply elem_of_nil in Hp].
    by apply list_elem_of_singleton in Hp as ->.
Qed.

Lemma ingested_date price_entries k p :
  p ∈ ingested price_entries k → p.1 ∈ price_date <$> price_entries.
Proof.
  induction price_entries as [|price price_entries IH].
  - intros Hp. by apply elem_of_nil in Hp.
  - rewrite ingested_cons, fmap_cons. intros Hp.
    apply elem_of_app in Hp as [Hp | Hp].
    + apply points_of_date in Hp as ->. by left.
    + right. by apply IH.
Qed.

(** The points ingested for a pair from a stream ordered by date are ordered
    by date. *)
Lemma ingested_ascending price_entries k :
  date_ascending price_entries →
  StronglySorted Z.le ((ingested price_entries k).*1).
Proof.
  unfold date_ascending.
  induction price_entries as [|price price_entries IH]; intros Hs.
  - constructor.
  - rewrite fmap_cons in Hs. apply StronglySorted_inv in Hs as [Hs Hall].
    rewrite ingested_cons, fmap_app.
    apply StronglySorted_app_2; [| | by apply IH].
    + intros d1 d2 H1 H2.
      apply list_elem_of_fmap in H1 as (p1 & -> & H1).
      apply list_elem_of_fmap in H2 as (p2 & -> & H2).
      apply points_of_date in H1 as ->. apply ingested_date in H2.
      rewrite Forall_forall in Hall. by apply Hall.
    + assert (∀ p, p ∈ points_of k price → p.1 = price_date price) as Hd
        by apply points_of_date.
      revert Hd. generalize (points_of k price).
      induction l as [|p l IHl]; intros Hd; [constructor |].
      rewrite fmap_cons. constructor.
      * apply IHl. intros q Hq. apply Hd. by right.
      * apply Forall_forall. intros d Hin.
        apply list_elem_of_fmap in Hin as (q & -> & Hq).
        rewrite (Hd p), (Hd q); [lia | by right | by left].
Qed.

End ingest_facts.

Section counter_facts.

Lemma Counter_get_incr counts k k' :
  Counter_get (Counter_incr counts k) k' =
  if decide (k = k') then Counter_get counts k + 1 else Counter_get counts k'.
Proof.
  induction counts as [|[k0 n] counts IH]; simpl.
  - case_bool_decide; case_decide; done.
  - case_bool_decide as H0; simpl.
    + subst k0. case_bool_decide; case_decide; done.
    + rewrite IH. case_bool_decide; case_decide; congruence.
Qed.

Lemma Counter_incr_keys counts k :
  (Counter_incr counts k).*1 =
  if decide (k ∈ counts.*1) then counts.*1 else counts.*1 ++ [k].
Proof.
  induction counts as [|[k0 n] counts IH].
  - destruct (decide (k ∈ [].*1)) as [Hin | _]; [| done].
    by apply elem_of_nil in Hin.
  - cbn [Counter_incr]. rewrite !fmap_cons. cbn [fst].
    case_bool_decide as H0.
    + subst k0. rewrite fmap_cons. cbn [fst].
      destruct (decide (k ∈ k :: counts.*1)) as [_ | Hin]; [done |].
      exfalso. apply Hin. by left.
    + rewrite fmap_cons, IH. cbn [fst].
      destruct (decide (k ∈ counts.*1)) as [Hin | Hin];
        destruct (decide (k ∈ k0 :: counts.*1)) as [Hin' | Hin']; try done.
      * exfalso. apply Hin'. by right.
      * apply elem_of_cons in Hin' as [-> | ?]; done.
Qed.

Lemma Counter_incr_NoDup counts k :
  NoDup (counts.*1) → NoDup ((Counter_incr counts k).*1).
Proof.
  intros Hnd. rewrite Counter_incr_keys. case_decide as Hin; [done |].
  apply NoDup_app. split_and!; [done | | apply NoDup_singleton].
  intros x Hx Hk. apply list_elem_of_singleton in Hk as ->. done.
Qed.

(** With distinct keys, the count stored with a key is the one read. *)
Lemma Counter_get_item counts k n :
  NoDup (counts.*1) → (k, n) ∈ counts → Counter_get counts k = n.
Proof.
  induction counts as [|[k0 n0] counts IH]; simpl; intros Hnd Hin.
  - by apply elem_of_nil in Hin.
  - apply NoDup_cons in Hnd as [Hk0 Hnd].
    apply elem_of_cons in Hin as [Heq | Hin].
    + inversion Heq; subst. by rewrite bool_decide_eq_true_2.
    + rewrite bool_decide_eq_false_2; [by apply IH |].
      intros ->. apply Hk0. by apply (list_elem_of_fmap_2 fst _ _ Hin).
Qed.

(** A positive count is stored with its key. *)
Lemma Counter_get_positive counts k :
  0 < Counter_get counts k → (k, Counter_get counts k) ∈ counts.
Proof.
  induction counts as [|[k0 n0] counts IH]; simpl; intros Hpos; [lia |].
  case_bool_decide as H0; [subst; by left | right; by apply IH].
Qed.

Lemma elem_of_forward_pairs_of counts base quote :
  (base, quote) ∈ forward_pairs_of counts ↔
  ∃ count, ((base, quote), count) ∈ counts
           ∧ Counter_get counts (quote, base) < count.
Proof.
  unfold forward_pairs_of. rewrite list_elem_of_omap. split.
  - intros ([[b q] n] & Hin & Hsome).
    destruct (Counter_get counts (q, b) <? n) eqn:Hlt; [| done].
    apply Nat.ltb_lt in Hlt. inversion Hsome; subst. eauto.
  - intros (n & Hin & Hlt). exists ((base, quote), n). split; [done |].
    by rewrite (proj2 (Nat.ltb_lt _ _) Hlt).
Qed.

(** A pair is listed as forward exactly when it was counted strictly more
    often than its reverse. *)
Lemma forward_pairs_of_spec counts base quote :
  NoDup (counts.*1) →
  (base, quote) ∈ forward_pairs_of counts ↔
  Counter_get counts (quote, base) < Counter_get counts (base, quote).
Proof.
  intros Hnd. rewrite elem_of_forward_pairs_of. split.
  - intros (n & Hin & Hlt). by rewrite (Counter_get_item _ _ _ Hnd Hin).
  - intros Hlt. exists (Counter_get counts (base, quote)). split; [| done].
    apply Counter_get_positive. lia.
Qed.

Lemma foldl_ingest_counts price_entries : ∀ st k,
  Counter_get (st_counts (foldl ingest st price_entries)) k
  = Counter_get (st_counts st) k + observation_count price_entries k.
Proof.
  unfold observation_count.
  induction price_entries as [|price price_entries IH]; intros st k.
  - simpl. lia.
  - cbn [foldl]. rewrite IH. unfold ingest. cbn [st_counts].
    rewrite Counter_get_incr, filter_cons. fold (price_pair price).
    repeat case_decide; simpl; subst; try done; lia.
Qed.

Lemma foldl_ingest_counts_NoDup price_entries : ∀ st,
  NoDup ((st_counts st).*1) →
  NoDup ((st_counts (foldl ingest st price_entries)).*1).
Proof.
  induction price_entries as [|price price_entries IH]; intros st Hnd; [done |].
  cbn [foldl]. apply IH. unfold ingest; simpl. by apply Counter_incr_NoDup.
Qed.

End counter_facts.

Section init_facts.

Lemma keep_last_per_day_stored (l : list PricePoint) :
  l ≠ [] → ∃ l', _keep_last_per_day l = Ok l' ∧ stored_series l = Some l'.
Proof. destruct l as [|p l]; [done | intros _; simpl; eauto]. Qed.

(** The comprehension never raises on a dictionary without empty lists, and
    maps each raw series to its collapsed form. *)
Lemma collapse_all_spec (raw_map : gmap BaseQuote (list PricePoint)) :
  (∀ k l, raw_map !! k = Some l → l ≠ []) →
  ∃ m, collapse_all raw_map = Ok m
       ∧ ∀ k, m !! k = raw_map !! k ≫= stored_series.
Proof.
  unfold collapse_all.
  apply (map_fold_weak_ind
    (λ r (raw : gmap BaseQuote (list PricePoint)),
       (∀ k l, raw !! k = Some l → l ≠ []) →
       ∃ m, r = Ok m ∧ ∀ k, m !! k = raw !! k ≫= stored_series)).
  - intros _. exists ∅. split; [done |]. intros k. by rewrite !lookup_empty.
  - intros i rates raw r Hi IH Hne.
    destruct IH as (m & -> & Hm).
    { intros k l Hk. apply (Hne k). rewrite lookup_insert_ne; [done |].
      intros ->. congruence. }
    destruct (keep_last_per_day_stored rates) as (l' & Hl' & Hst).
    { apply (Hne i). by rewrite lookup_insert_eq. }
    rewrite bind_Ok, Hl', bind_Ok. eexists. split; [done |].
    intros k. destruct (decide (i = k)) as [-> | Hik].
    + by rewrite !lookup_insert_eq.
    + by rewrite !lookup_insert_ne.
Qed.

Lemma series_entry_nonempty (l l' : list PricePoint) : series_entry l = Some l' → l' ≠ [].
Proof. destruct l; [done |]. by intros [= <-]. Qed.

Lemma series_entry_stored (l : list PricePoint) : series_entry l ≫= stored_series = stored_series l.
Proof. by destruct l. Qed.

(** The constructor returns for every observation stream; its dictionary
    holds, for each pair, the collapsed list of the points ingested for it,
    and its forward pairs are read off the counter of the ingestion loop. *)
Lemma FavaPriceMap_init_spec price_entries :
  ∃ pm, FavaPriceMap_init price_entries = Ok pm
        ∧ (∀ k, _map pm !! k = stored_series (ingested price_entries k))
        ∧ (∀ base quote,
             (base, quote) ∈ _forward_pairs pm ↔
             observation_count price_entries (quote, base)
             < observation_count price_entries (base, quote)).
Proof.
  unfold FavaPriceMap_init.
  destruct (collapse_all_spec
              (st_raw_map (foldl ingest ingest_start price_entries)))
    as (m & -> & Hm).
  { intros k l. rewrite raw_map_lookup. apply series_entry_nonempty. }
  rewrite bind_Ok. eexists. split; [done |]. simpl. split.
  - intros k. by rewrite Hm, raw_map_lookup, series_entry_stored.
  - intros base quote. rewrite forward_pairs_of_spec.
    + by rewrite !foldl_ingest_counts.
    + apply foldl_ingest_counts_NoDup. constructor.
Qed.

Lemma constructed_map price_entries self k :
  constructed price_entries self →
  _map self !! k = stored_series (ingested price_entries k).
Proof.
  intros (pm & Hpm & -> & _).
  destruct (FavaPriceMap_init_spec price_entries) as (pm' & Hpm' & Hmap & _).
  rewrite Hpm in Hpm'. injection Hpm' as <-. apply Hmap.
Qed.

Lemma constructed_forward_pairs price_entries self base quote :
  constructed price_entries self →
  (base, quote) ∈ _forward_pairs self ↔
  observation_count price_entries (quote, base)
  < observation_count price_entries (base, quote).
Proof.
  intros (pm & Hpm & _ & -> & _).
  destruct (FavaPriceMap_init_spec price_entries) as (pm' & Hpm' & _ & Hfw).
  rewrite Hpm in Hpm'. injection Hpm' as <-. apply Hfw.
Qed.

(** The constructor's own instance is one of those it may leave. *)
Lemma constructed_init price_entries :
  ∃ pm, FavaPriceMap_init price_entries = Ok pm ∧ constructed price_entries pm.
Proof.
  destruct (FavaPriceMap_init_spec price_entries) as (pm & Hpm & _).
  exists pm. split; [done |]. by exists pm.
Qed.

Lemma stored_series_nonempty (l l' : list PricePoint) : stored_series l = Some l' → l' ≠ [].
Proof.
  destruct l as [|p l]; [done |]. intros [= <-]. apply keep_last_loop_nonempty.
Qed.

End init_facts.

(** ** Results on the point lookup *)

Section lookup_facts.

Lemma StronglySorted_lookup_lt {A} (R : relation A) (l : list A) i j x y :
  StronglySorted R l → i < j → l !! i = Some x → l !! j = Some y → R x y.
Proof.
  intros Hs. revert i j. induction Hs as [|a l Hs IH Hall]; intros i j Hij Hi Hj.
  - by rewrite lookup_nil in Hi.
  - destruct j as [|j]; [lia |]. rewrite lookup_cons in Hj.
    destruct i as [|i].
    + injection Hi as <-. rewrite Forall_forall in Hall.
      apply Hall. by eapply list_elem_of_lookup_2.
    + rewrite lookup_cons in Hi. apply (IH i j); [lia | done..].
Qed.

Lemma series_lookup_le (l : list PricePoint) i j p q :
  StronglySorted Z.le (l.*1) → i ≤ j → l !! i = Some p → l !! j = Some q →
  (p.1 ≤ q.1)%Z.
Proof.
  intros Hs Hij Hi Hj. destruct (decide (i = j)) as [-> | Hne].
  - rewrite Hi in Hj. injection Hj as <-. lia.
  - apply (StronglySorted_lookup_lt Z.le (l.*1) i j); [done | lia | |];
      rewrite list_lookup_fmap; [by rewrite Hi | by rewrite Hj].
Qed.

Lemma increasing_ascending (l : list Z) :
  StronglySorted Z.lt l → StronglySorted Z.le l.
Proof.
  induction 1 as [|a l Hs IH Hall]; constructor; [done |].
  eapply Forall_impl; [done |]. simpl. lia.
Qed.

(** [bisect] on a series ordered by date returns the number of points dated
    at most [x]. *)
Lemma bisect_ascending (l : list PricePoint) x :
  StronglySorted Z.le (l.*1) →
  ∃ k, bisect (mkDateKeyWrapper l) x = Ok k
       ∧ k ≤ length l
       ∧ (∀ i p, i < k → l !! i = Some p → (p.1 ≤ x)%Z)
       ∧ (∀ i p, k ≤ i → l !! i = Some p → (x < p.1)%Z).
Proof.
  intros Hs. unfold bisect.
  destruct (bisect_loop_returns (mkDateKeyWrapper l) x (length l) 0 (length l))
    as (k' & Hk' & Hb); [unfold DateKeyWrapper_len; simpl; lia.. |].
  destruct (bisect_loop_partition (mkDateKeyWrapper l) x (length l) 0 (length l))
    as (k & Hk & Hlow & Hhigh).
  - intros i j p q. apply series_lookup_le, Hs.
  - intros i p Hi. lia.
  - intros i p Hi Hp. simpl in Hp. apply lookup_lt_Some in Hp. lia.
  - lia.
  - unfold DateKeyWrapper_len. simpl. lia.
  - lia.
  - exists k. unfold DateKeyWrapper_len. simpl.
    rewrite Hk in Hk'. injection Hk' as <-. split_and!; [done | lia | done..].
Qed.

(** The point found by [bisect] for a date between a point and its
    successor. *)
Lemma bisect_between (l : list PricePoint) x i p :
  StronglySorted Z.le (l.*1) →
  l !! i = Some p → (p.1 ≤ x)%Z →
  (∀ q, l !! S i = Some q → (x < q.1)%Z) →
  bisect (mkDateKeyWrapper l) x = Ok (S i).
Proof.
  intros Hs Hp Hle Hnext.
  destruct (bisect_ascending l x Hs) as (k & -> & Hlen & Hlow & Hhigh).
  f_equal. destruct (decide (k ≤ i)) as [Hki | Hki].
  { specialize (Hhigh i p Hki Hp). lia. }
  destruct (decide (S i < k)) as [Hik | Hik]; [| lia].
  destruct (lookup_lt_is_Some_2 l (S i)) as [q Hq]; [lia |].
  specialize (Hlow (S i) q Hik Hq). specialize (Hnext q Hq). lia.
Qed.

Lemma bisect_before (l : list PricePoint) x :
  (∀ p, p ∈ l → (x < p.1)%Z) → bisect (mkDateKeyWrapper l) x = Ok 0.
Proof.
  intros Hall. unfold bisect. apply bisect_loop_all_later; [| lia..].
  intros i p Hp. apply Hall. by eapply list_elem_of_lookup_2.
Qed.

Lemma get_price_point_identity depth self base date :
  get_price_point (S depth) self (base, base) date = Ok (None, Some ONE).
Proof. simpl. by rewrite String.eqb_refl. Qed.

(** With a stored series for the pair, the lookup does not leave the direct
    branch. *)
Lemma get_price_point_direct depth self base quote date l :
  base ≠ quote → _map self !! (base, quote) = Some l →
  get_price_point (S depth) self (base, quote) date =
  match date with
  | None => p ← list_getitem_last l; Ok (found p)
  | Some d =>
      index ← bisect (mkDateKeyWrapper l) d;
      if index =? 0 then Ok no_data
      else p ← list_getitem l (index - 1); Ok (found p)
  end.
Proof.
  intros Hne Hl. cbn [get_price_point].
  rewrite (proj2 (String.eqb_neq base quote) Hne). by rewrite Hl.
Qed.

Lemma get_price_point_direct_latest depth self base quote l p :
  base ≠ quote → _map self !! (base, quote) = Some l → last l = Some p →
  get_price_point (S depth) self (base, quote) None = Ok (found p).
Proof.
  intros Hne Hl Hp. rewrite (get_price_point_direct _ _ _ _ _ l) by done.
  unfold list_getitem_last. by rewrite Hp.
Qed.

Lemma get_price_point_direct_between depth self base quote l d i p :
  base ≠ quote → _map self !! (base, quote) = Some l →
  StronglySorted Z.le (l.*1) →
  l !! i = Some p → (p.1 ≤ d)%Z →
  (∀ q, l !! S i = Some q → (d < q.1)%Z) →
  get_price_point (S depth) self (base, quote) (Some d) = Ok (found p).
Proof.
  intros Hne Hl Hs Hp Hle Hnext.
  rewrite (get_price_point_direct _ _ _ _ _ l) by done.
  rewrite (bisect_between l d i p) by done. rewrite bind_Ok.
  cbn [Nat.eqb]. unfold list_getitem.
  replace (S i - 1) with i by lia. by rewrite Hp.
Qed.

Lemma get_price_point_direct_before depth self base quote l d :
  base ≠ quote → _map self !! (base, quote) = Some l →
  (∀ p, p ∈ l → (d < p.1)%Z) →
  get_price_point (S depth) self (base, quote) (Some d) = Ok no_data.
Proof.
  intros Hne Hl Hall. rewrite (get_price_point_direct _ _ _ _ _ l) by done.
  by rewrite bisect_before.
Qed.

(** On a non-empty series the direct branch reads in range. *)
Lemma get_price_point_direct_returns depth self base quote date l :
  base ≠ quote → _map self !! (base, quote) = Some l → l ≠ [] →
  ∃ v, get_price_point (S depth) self (base, quote) date = Ok v
       ∧ point_or_no_data v.
Proof.
  intros Hne Hl Hnil. rewrite (get_price_point_direct _ _ _ _ _ l) by done.
  destruct date as [d|].
  - destruct (bisect_returns (mkDateKeyWrapper l) d) as (k & -> & Hk).
    rewrite bind_Ok. unfold DateKeyWrapper_len in Hk. simpl in Hk.
    destruct k as [|k]; simpl.
    + exists no_data. split; [done | by left].
    + unfold list_getitem. replace (k - 0) with k by lia.
      destruct (lookup_lt_is_Some_2 l k) as [p ->]; [lia |].
      exists (found p). split; [done | right; eauto].
  - unfold list_getitem_last.
    destruct (last l) as [p|] eqn:Hlast; [| by apply last_None in Hlast].
    exists (found p). split; [done | right; eauto].
Qed.

End lookup_facts.

Section fallback_facts.

Variable self : FavaPriceMap.

Lemma via_currencies_cons recur base quote date currency rest :
  via_currencies recur self base quote date (currency :: rest) =
  if String.eqb currency base || String.eqb currency quote then
    via_currencies recur self base quote date rest
  else
    match _map self !! (base, currency), _map self !! (currency, quote) with
    | Some price_list1, Some price_list2 =>
        match date with
        | None =>
            p1 ← list_getitem_last price_list1;
            p2 ← list_getitem_last price_list2;
            if (p1.1 <? p2.1)%Z then recur (currency, quote) (Some p1.1)
            else recur (base, currency) (Some p2.1)
        | Some d =>
            index ← bisect (mkDateKeyWrapper price_list1) d;
            if index =? 0 then Ok no_data
            else
              p ← list_getitem price_list1 (index - 1);
              recur (currency, quote) (Some p.1)
        end
    | _, _ => via_currencies recur self base quote date rest
    end.
Proof. reflexivity. Qed.

Lemma last_getitem (l : list PricePoint) :
  l ≠ [] → ∃ p, list_getitem_last l = Ok p ∧ last l = Some p.
Proof.
  intros Hnil. unfold list_getitem_last.
  destruct (last l) as [p|] eqn:Hlast; [eauto | by apply last_None in Hlast].
Qed.

Lemma bisect_getitem (l : list PricePoint) d :
  ∃ index, bisect (mkDateKeyWrapper l) d = Ok index
           ∧ (index ≠ 0 → ∃ p, list_getitem l (index - 1) = Ok p).
Proof.
  destruct (bisect_returns (mkDateKeyWrapper l) d) as (k & Hk & Hlen).
  exists k. split; [done |]. intros Hk0.
  unfold DateKeyWrapper_len in Hlen. simpl in Hlen. unfold list_getitem.
  destruct (lookup_lt_is_Some_2 l (k - 1)) as [p ->]; [lia | eauto].
Qed.

(** The loop returns as soon as the calls it makes return. *)
Lemma via_currencies_returns recur (Q : PointResult → Prop) base quote date :
  series_nonempty self →
  Q no_data →
  (∀ bq d, direct_pair self bq → ∃ v, recur bq d = Ok v ∧ Q v) →
  ∀ currencies,
    ∃ v, via_currencies recur self base quote date currencies = Ok v ∧ Q v.
Proof.
  intros Hne Hnd Hrec currencies.
  induction currencies as [|currency rest IH]; [by exists no_data |].
  rewrite via_currencies_cons.
  destruct (String.eqb currency base || String.eqb currency quote) eqn:Hin;
    [done |].
  apply orb_false_iff in Hin as [Hb Hq].
  apply String.eqb_neq in Hb, Hq.
  destruct (_map self !! (base, currency)) as [l1|] eqn:H1; [| done].
  destruct (_map self !! (currency, quote)) as [l2|] eqn:H2; [| done].
  assert (direct_pair self (base, currency)) as Hd1.
  { split; [simpl; congruence | by rewrite H1]. }
  assert (direct_pair self (currency, quote)) as Hd2.
  { split; [done | by rewrite H2]. }
  destruct date as [d|].
  - destruct (bisect_getitem l1 d) as (index & -> & Hidx). rewrite bind_Ok.
    destruct (index =? 0) eqn:H0; [by exists no_data |].
    apply Nat.eqb_neq in H0. destruct (Hidx H0) as [p ->].
    rewrite bind_Ok. by apply Hrec.
  - destruct (last_getitem l1 (Hne _ _ H1)) as (p1 & -> & _).
    destruct (last_getitem l2 (Hne _ _ H2)) as (p2 & -> & _).
    rewrite !bind_Ok. destruct (p1.1 <? p2.1)%Z; by apply Hrec.
Qed.

(** The loop only depends on what the method returns on direct pairs. *)
Lemma via_currencies_ext recur1 recur2 base quote date :
  (∀ bq d, direct_pair self bq → recur1 bq d = recur2 bq d) →
  ∀ currencies,
    via_currencies recur1 self base quote date currencies
    = via_currencies recur2 self base quote date currencies.
Proof.
  intros Hrec currencies.
  induction currencies as [|currency rest IH]; [done |].
  rewrite !via_currencies_cons.
  destruct (String.eqb currency base || String.eqb currency quote) eqn:Hin;
    [done |].
  apply orb_false_iff in Hin as [Hb Hq].
  apply String.eqb_neq in Hb, Hq.
  destruct (_map self !! (base, currency)) as [l1|] eqn:H1; [| done].
  destruct (_map self !! (currency, quote)) as [l2|] eqn:H2; [| done].
  assert (direct_pair self (base, currency)) as Hd1.
  { split; [simpl; congruence | by rewrite H1]. }
  assert (direct_pair self (currency, quote)) as Hd2.
  { split; [done | by rewrite H2]. }
  destruct date as [d|].
  - destruct (bisect (mkDateKeyWrapper l1) d) as [index| |]; [| done..].
    rewrite !bind_Ok. destruct (index =? 0); [done |].
    destruct (list_getitem l1 (index - 1)) as [p| |]; [| done..].
    rewrite !bind_Ok. by apply Hrec.
  - destruct (list_getitem_last l1) as [p1| |]; [| done..].
    destruct (list_getitem_last l2) as [p2| |]; [| done..].
    rewrite !bind_Ok. destruct (p1.1 <? p2.1)%Z; by apply Hrec.
Qed.

(** Without a currency that has both legs, the loop ends on no data. *)
Lemma via_currencies_no_legs recur base quote date currencies :
  (∀ c, c ∈ currencies → c ≠ base → c ≠ quote →
        _map self !! (base, c) = None ∨ _map self !! (c, quote) = None) →
  via_currencies recur self base quote date currencies = Ok no_data.
Proof.
  induction currencies as [|currency rest IH]; intros Hlegs; [done |].
  rewrite via_currencies_cons.
  assert (via_currencies recur self base quote date rest = Ok no_data) as Hrest.
  { apply IH. intros c Hc. apply Hlegs. by right. }
  destruct (String.eqb currency base || String.eqb currency quote) eqn:Hin;
    [done |].
  apply orb_false_iff in Hin as [Hb Hq].
  apply String.eqb_neq in Hb, Hq.
  destruct (Hlegs currency) as [-> | H2]; [by left | done | done | done |].
  rewrite H2. by destruct (_map self !! (base, currency)).
Qed.

(** When every currency other than [c] is the base or the quote, the loop
    behaves as on [c] alone, wherever [c] comes in the iteration. *)
Lemma via_currencies_only recur base quote date currencies c :
  c ∈ currencies →
  (∀ c', c' ∈ currencies → c' ≠ c → c' = base ∨ c' = quote) →
  via_currencies recur self base quote date currencies
  = via_currencies recur self base quote date [c].
Proof.
  induction currencies as [|x rest IH]; intros Hc Hothers.
  { by apply elem_of_nil in Hc. }
  destruct (decide (x = c)) as [-> | Hx].
  - assert (∀ c', c' ∈ rest → c' ≠ c → c' = base ∨ c' = quote) as Hrest.
    { intros c' Hc'. apply Hothers. by right. }
    rewrite !via_currencies_cons.
    destruct (String.eqb c base || String.eqb c quote) eqn:Hin.
    + apply via_currencies_no_legs. intros c' Hc' Hb Hq.
      destruct (decide (c' = c)) as [-> | Hne].
      * apply orb_true_iff in Hin as [Hin | Hin];
          apply String.eqb_eq in Hin; congruence.
      * destruct (Hrest c' Hc' Hne); congruence.
    + destruct (_map self !! (base, c)) as [l1|] eqn:H1;
        [destruct (_map self !! (c, quote)) as [l2|] eqn:H2; [done |] |];
        apply via_currencies_no_legs; intros c' Hc' Hb Hq;
        (destruct (decide (c' = c)) as [-> | Hne];
         [auto | destruct (Hrest c' Hc' Hne); congruence]).
  - rewrite via_currencies_cons.
    assert (String.eqb x base || String.eqb x quote = true) as ->.
    { apply orb_true_iff.
      destruct (Hothers x) as [-> | ->]; [by left | done | left | right];
        apply String.eqb_refl. }
    apply IH.
    + apply elem_of_cons in Hc as [-> | Hc]; done.
    + intros c' Hc'. apply Hothers. by right.
Qed.

Lemma get_price_point_fallback depth base quote date :
  base ≠ quote → _map self !! (base, quote) = None →
  get_price_point (S depth) self (base, quote) date =
  via_currencies (get_price_point depth self) self base quote date
    (_currencies self).
Proof.
  intros Hne Hl. cbn [get_price_point].
  by rewrite (proj2 (String.eqb_neq base quote) Hne), Hl.
Qed.

(** On a direct pair the method answers without a recursive call. *)
Lemma get_price_point_direct_depth depth bq date :
  direct_pair self bq →
  get_price_point (S depth) self bq date = get_price_point 1 self bq date.
Proof.
  destruct bq as [base quote]. intros [Hne [l Hl]]. simpl in Hne.
  by rewrite !(get_price_point_direct _ _ _ _ _ l).
Qed.

(** One level of recursion is all the method ever uses. *)
Lemma get_price_point_depth depth bq date :
  get_price_point (S (S depth)) self bq date = get_price_point 2 self bq date.
Proof.
  destruct bq as [base quote].
  destruct (decide (base = quote)) as [-> | Hne].
  { by rewrite !get_price_point_identity. }
  destruct (_map self !! (base, quote)) as [l|] eqn:Hl.
  { by rewrite !(get_price_point_direct _ _ _ _ _ l). }
  rewrite !get_price_point_fallback by done.
  apply via_currencies_ext. intros bq d Hd.
  by apply get_price_point_direct_depth.
Qed.

(** With non-empty series the method returns, with a point or no data. *)
Lemma get_price_point_returns depth base quote date :
  series_nonempty self → base ≠ quote →
  ∃ v, get_price_point (S (S depth)) self (base, quote) date = Ok v
       ∧ point_or_no_data v.
Proof.
  intros Hne Hbq.
  destruct (_map self !! (base, quote)) as [l|] eqn:Hl.
  - apply (get_price_point_direct_returns _ _ _ _ _ l); [done.. |].
    by apply (Hne (base, quote)).
  - rewrite get_price_point_fallback by done.
    apply via_currencies_returns; [done | by left |].
    intros [b q] d [Hd [l' Hl']]. simpl in Hd.
    apply (get_price_point_direct_returns _ _ _ _ _ l'); [done.. |].
    by apply (Hne (b, q)).
Qed.

End fallback_facts.

Lemma constructed_series_nonempty price_entries self :
  constructed price_entries self → series_nonempty self.
Proof.
  intros Hc k l. rewrite (constructed_map price_entries) by done.
  apply stored_series_nonempty.
Qed.

(** ** Results on the pair listing *)

Section order_facts.

Lemma ascii_compare_lt_trans a b c :
  Ascii.compare a b = Lt → Ascii.compare b c = Lt → Ascii.compare a c = Lt.
Proof.
  unfold Ascii.compare. rewrite !N.compare_lt_iff. lia.
Qed.

Lemma string_compare_lt_trans : ∀ s1 s2 s3,
  String.compare s1 s2 = Lt → String.compare s2 s3 = Lt →
  String.compare s1 s3 = Lt.
Proof.
  induction s1 as [|a s1 IH]; intros [|b s2] [|c s3]; simpl; try done.
  destruct (Ascii.compare a b) eqn:Hab; [| | done].
  - apply Ascii.compare_eq_iff in Hab as ->.
    destruct (Ascii.compare b c); [apply IH | done..].
  - destruct (Ascii.compare b c) eqn:Hbc; [| | done].
    + apply Ascii.compare_eq_iff in Hbc as <-. by rewrite Hab.
    + by rewrite (ascii_compare_lt_trans a b c).
Qed.

Lemma string_leb_trans s1 s2 s3 :
  String.leb s1 s2 = true → String.leb s2 s3 = true → String.leb s1 s3 = true.
Proof.
  unfold String.leb.
  destruct (String.compare s1 s2) eqn:H12; [| | done]; intros _.
  - by apply String.compare_eq_iff in H12 as ->.
  - destruct (String.compare s2 s3) eqn:H23; [| | done]; intros _.
    + apply String.compare_eq_iff in H23 as <-. by rewrite H12.
    + by rewrite (string_compare_lt_trans s1 s2 s3).
Qed.

#[local] Instance tuple_le_total : Total tuple_le.
Proof.
  intros [a b] [c d]. unfold tuple_le, tuple_leb. simpl.
  rewrite (String.compare_antisym a c).
  destruct (String.compare c a); simpl; auto.
  apply String.leb_total.
Qed.

#[local] Instance tuple_le_trans : Transitive tuple_le.
Proof.
  intros [a1 b1] [a2 b2] [a3 b3]. unfold tuple_le, tuple_leb. simpl.
  destruct (String.compare a1 a2) eqn:H12; [| | done].
  - apply String.compare_eq_iff in H12 as ->.
    destruct (String.compare a2 a3); [apply string_leb_trans | done..].
  - destruct (String.compare a2 a3) eqn:H23; [| | done]; intros _ H.
    + apply String.compare_eq_iff in H23 as <-. by rewrite H12.
    + by rewrite (string_compare_lt_trans a1 a2 a3).
Qed.

Lemma sorted_Permutation l : sorted l ≡ₚ l.
Proof. apply merge_sort_Permutation. Qed.

Lemma sorted_StronglySorted l : StronglySorted tuple_le (sorted l).
Proof. apply StronglySorted_merge_sort; apply _. Qed.

End order_facts.

Section listing_facts.

Variable operating_currencies : list Currency.

Lemma extra_pairs_foldl forward_pairs : ∀ extra,
  foldl (λ extra (bq : BaseQuote),
           let '(base, quote) := bq in
           if bool_decide (base ∈ operating_currencies)
              && bool_decide (quote ∈ operating_currencies)
           then extra ++ [(quote, base)] else extra)
        extra forward_pairs
  = extra ++ (reversed <$> filter (both_operating operating_currencies)
                                  forward_pairs).
Proof.
  induction forward_pairs as [|[base quote] rest IH]; intros extra.
  - simpl. by rewrite app_nil_r.
  - cbn [foldl]. rewrite IH, filter_cons. unfold both_operating at 2. simpl.
    destruct (decide (base ∈ operating_currencies ∧ quote ∈ operating_currencies))
      as [[Hb Hq] | Hno].
    + rewrite !bool_decide_eq_true_2 by done. simpl. by rewrite <- app_assoc.
    + destruct (bool_decide (base ∈ operating_currencies)) eqn:Hb;
        destruct (bool_decide (quote ∈ operating_currencies)) eqn:Hq;
        simpl; try done.
      apply bool_decide_eq_true_1 in Hb, Hq. by destruct Hno.
Qed.

Lemma commodity_pairs_unfold (self : FavaPriceMap) :
  commodity_pairs self operating_currencies =
  sorted (_forward_pairs self
          ++ (reversed <$> filter (both_operating operating_currencies)
                                  (_forward_pairs self))).
Proof. unfold commodity_pairs. by rewrite extra_pairs_foldl. Qed.

Lemma elem_of_commodity_pairs (self : FavaPriceMap) bq :
  bq ∈ commodity_pairs self operating_currencies ↔
  bq ∈ _forward_pairs self
  ∨ (reversed bq ∈ _forward_pairs self
     ∧ both_operating operating_currencies bq).
Proof.
  rewrite commodity_pairs_unfold, sorted_Permutation, elem_of_app.
  rewrite list_elem_of_fmap. destruct bq as [b q]. split.
  - intros [H | ([b' q'] & Heq & Hin)]; [by left | right].
    apply list_elem_of_filter in Hin as [[Hb Hq] Hin].
    injection Heq as -> ->. by split.
  - intros [H | [Hin [Hb Hq]]]; [by left | right].
    exists (q, b). split; [done |]. apply list_elem_of_filter. by split.
Qed.

End listing_facts.

(** ** The properties of the price map *)

(** C4.  Identity: for every currency [X], every query date or none and every
    instance, whatever its dictionary holds, [get_price_point((X, X), date)]
    returns [(None, ONE)]; no stored series is read. *)
Theorem identity_conversion (self : FavaPriceMap) (X : Currency)
    (date : option date) (depth : nat) :
  get_price_point (S depth) self (X, X) date = Ok (None, Some ONE).
Proof. apply get_price_point_identity. Qed.

(** C3.  Monotonic-date correctness: for a pair of distinct currencies whose
    stored series has the dates [d1 < d2 < d3], a query at any [d] with
    [d2 <= d < d3] returns the point at [d2], a query at [d < d1] returns
    no data, and a query without date returns the point at [d3]. *)
Theorem monotonic_date_lookup (self : FavaPriceMap) (base quote : Currency)
    (d1 d2 d3 : date) (r1 r2 r3 : Decimal) (depth : nat) :
  base ≠ quote →
  _map self !! (base, quote) = Some [(d1, r1); (d2, r2); (d3, r3)] →
  (d1 < d2)%Z → (d2 < d3)%Z →
  (∀ d, (d2 ≤ d)%Z → (d < d3)%Z →
        get_price_point (S depth) self (base, quote) (Some d)
        = Ok (Some d2, Some r2))
  ∧ (∀ d, (d < d1)%Z →
          get_price_point (S depth) self (base, quote) (Some d)
          = Ok (None, None))
  ∧ get_price_point (S depth) self (base, quote) None = Ok (Some d3, Some r3).
Proof.
  intros Hne Hl H12 H23.
  set (l := [(d1, r1); (d2, r2); (d3, r3)]) in *. split_and!.
  - intros d Hd2 Hd3.
    apply (get_price_point_direct_between depth self base quote l d 1 (d2, r2));
      [done | done | | done | done |].
    + simpl. repeat constructor; lia.
    + intros q [= <-]. done.
  - intros d Hd.
    apply (get_price_point_direct_before depth self base quote l d);
      [done | done |].
    intros p Hp. repeat (apply elem_of_cons in Hp as [-> | Hp]; [simpl; lia |]).
    by apply elem_of_nil in Hp.
  - by apply (get_price_point_direct_latest depth self base quote l (d3, r3)).
Qed.

Lemma ingested_app s1 s2 k : ingested (s1 ++ s2) k = ingested s1 k ++ ingested s2 k.
Proof. unfold ingested. apply bind_app. Qed.

Lemma elem_of_ingested s k p :
  p ∈ ingested s k ↔ ∃ price, p ∈ points_of k price ∧ price ∈ s.
Proof. unfold ingested. apply list_elem_of_bind. Qed.

(** The point stored for a date is the last one ingested for that date. *)
Lemma stored_point_on_date s self k d p :
  date_ascending s → constructed s self →
  last (on_date d (ingested s k)) = Some p →
  ∃ l i, _map self !! k = Some l
         ∧ on_date d l = [p]
         ∧ StronglySorted Z.lt (l.*1)
         ∧ l !! i = Some p ∧ p.1 = d.
Proof.
  intros Hs Hc Hlast.
  pose proof (constructed_map s self k Hc) as Hmap.
  pose proof (ingested_ascending s k Hs) as Hraw.
  destruct (ingested s k) as [|p0 raw] eqn:Hing.
  { unfold on_date in Hlast. by rewrite filter_nil in Hlast. }
  simpl in Hmap.
  pose proof (keep_last_loop_on_date d p0 raw Hraw) as Hon.
  rewrite Hlast in Hon. simpl in Hon.
  assert (p ∈ keep_last_loop p0 raw ∧ p.1 = d) as [Hin Hpd].
  { assert (p ∈ on_date d (keep_last_loop p0 raw)) as Hp
      by (rewrite Hon; by left).
    apply list_elem_of_filter in Hp as [? ?]. done. }
  apply list_elem_of_lookup in Hin as [i Hi].
  exists (keep_last_loop p0 raw), i. split_and!; try done.
  by apply keep_last_loop_increasing.
Qed.

(** C5 (amended).  Inverse consistency: in a date-ascending stream, for an
    observation of [(A, B)], [A] and [B] distinct, with rate [r != 0] on date
    [d], [get_price_point((B, A), d)] returns [(d, ONE / r)], unless an
    observation ingested later on that same date overrides it: one of
    [(B, A)], or another one of [(A, B)] with a non-zero rate. *)
Theorem inverse_consistency (s1 s2 : list Price) (self : FavaPriceMap)
    (A B : Currency) (d : date) (r : Decimal) (depth : nat) :
  date_ascending (s1 ++ mkPrice d A (mkAmount r B) :: s2) →
  constructed (s1 ++ mkPrice d A (mkAmount r B) :: s2) self →
  A ≠ B → dec_eqb r ZERO = false →
  (∀ o, o ∈ s2 → price_date o = d →
        price_pair o ≠ (B, A)
        ∧ (price_pair o = (A, B) →
           dec_eqb (number (price_amount o)) ZERO = true)) →
  get_price_point (S depth) self (B, A) (Some d)
  = Ok (Some d, Some (dec_div ONE r)).
Proof.
  intros Hs Hc Hne Hr Hlater.
  destruct (stored_point_on_date _ self (B, A) d (d, dec_div ONE r) Hs Hc)
    as (l & i & Hl & _ & Hinc & Hi & _).
  { rewrite ingested_app, ingested_cons. unfold on_date.
    rewrite !filter_app.
    assert (points_of (B, A) (mkPrice d A (mkAmount r B)) = [(d, dec_div ONE r)])
      as ->.
    { unfold points_of, price_pair. simpl. rewrite Hr. simpl.
      rewrite bool_decide_eq_false_2 by congruence.
      by rewrite bool_decide_eq_true_2. }
    assert (filter (λ p : PricePoint, p.1 = d) (ingested s2 (B, A)) = []) as ->.
    { apply elem_of_nil_inv. intros p Hp.
      apply list_elem_of_filter in Hp as [Hpd Hp].
      apply elem_of_ingested in Hp as (o & Hp & Ho).
      pose proof (points_of_date _ _ _ Hp) as Hdate.
      destruct (Hlater o Ho) as [Hpair Hzero]; [congruence |].
      unfold points_of in Hp.
      rewrite bool_decide_eq_false_2 in Hp by done. simpl in Hp.
      destruct (dec_eqb (number (price_amount o)) ZERO) eqn:Hz; simpl in Hp.
      { by apply elem_of_nil in Hp. }
      case_bool_decide as Hrev; [| by apply elem_of_nil in Hp].
      assert (price_pair o = (A, B)) as Hab.
      { unfold price_pair. by injection Hrev as -> ->. }
      by specialize (Hzero Hab). }
    rewrite app_nil_r, filter_cons_True by done.
    rewrite filter_nil. apply last_snoc. }
  apply (get_price_point_direct_between depth self B A l d i (d, dec_div ONE r));
    [congruence | done | by apply increasing_ascending | done | simpl; lia |].
  intros q Hq.
  apply (StronglySorted_lookup_lt Z.lt (l.*1) i (S i) d q.1 Hinc); [lia | |];
    rewrite list_lookup_fmap; [by rewrite Hi | by rewrite Hq].
Qed.

(** What the strict comparison of the counts does on a tie: when [(A, B)] and
    [(B, A)] were observed equally often, neither direction is a forward
    pair, and [commodity_pairs] lists neither of them, whatever the operating
    currencies. *)
Lemma tie_lists_neither_direction (s : list Price) (self : FavaPriceMap)
    (A B : Currency) :
  constructed s self →
  observation_count s (A, B) = observation_count s (B, A) →
  ((A, B) ∉ _forward_pairs self) ∧ ((B, A) ∉ _forward_pairs self)
  ∧ ∀ operating_currencies,
      ((A, B) ∉ commodity_pairs self operating_currencies)
      ∧ ((B, A) ∉ commodity_pairs self operating_currencies).
Proof.
  intros Hc Htie.
  assert ((A, B) ∉ _forward_pairs self) as HAB.
  { rewrite (constructed_forward_pairs s self A B Hc). lia. }
  assert ((B, A) ∉ _forward_pairs self) as HBA.
  { rewrite (constructed_forward_pairs s self B A Hc). lia. }
  split_and!; [done | done |].
  intros operating_currencies.
  rewrite !elem_of_commodity_pairs. unfold reversed. simpl. tauto.
Qed.

(** C7.  [commodity_pairs] returns the forward pairs together with the
    reverse of each forward pair whose two currencies are operating
    currencies, sorted ascending by the lexicographic order of
    [(base, quote)]; without operating currencies it returns exactly the
    forward pairs. *)
Theorem commodity_pairs_listing (self : FavaPriceMap)
    (operating_currencies : list Currency) :
  commodity_pairs self operating_currencies
    ≡ₚ _forward_pairs self
       ++ (reversed <$> filter (both_operating operating_currencies)
                               (_forward_pairs self))
  ∧ StronglySorted tuple_le (commodity_pairs self operating_currencies)
  ∧ commodity_pairs self [] ≡ₚ _forward_pairs self.
Proof.
  split_and!.
  - rewrite commodity_pairs_unfold. apply sorted_Permutation.
  - rewrite commodity_pairs_unfold. apply sorted_StronglySorted.
  - rewrite commodity_pairs_unfold, sorted_Permutation.
    assert (filter (both_operating []) (_forward_pairs self) = []) as ->.
    { apply elem_of_nil_inv. intros bq Hbq.
      apply list_elem_of_filter in Hbq as [[Hb _] _]. by apply elem_of_nil in Hb. }
    by rewrite app_nil_r.
Qed.

(** C8.  [get_all_prices] returns the series stored for the pair, that is the
    collapsed list of the points ingested for it, and nothing when no point
    was ingested for it; in particular, when all observations are of [(A, C)]
    or of [(C, B)], [get_all_prices((A, B))] returns nothing. *)
Theorem get_all_prices_raw (s : list Price) (self : FavaPriceMap) :
  constructed s self →
  (∀ k, get_all_prices self k = _map self !! k
        ∧ get_all_prices self k = stored_series (ingested s k))
  ∧ (∀ A B C, A ≠ C → B ≠ C →
       (∀ o, o ∈ s → price_pair o = (A, C) ∨ price_pair o = (C, B)) →
       get_all_prices self (A, B) = None).
Proof.
  intros Hc. split.
  - intros k. split; [done |]. by apply constructed_map.
  - intros A B C HAC HBC Hobs. unfold get_all_prices.
    rewrite (constructed_map s self (A, B) Hc).
    assert (ingested s (A, B) = []) as ->; [| done].
    apply elem_of_nil_inv. intros p Hp.
    apply elem_of_ingested in Hp as (o & Hp & Ho).
    unfold points_of in Hp. specialize (Hobs o Ho).
    apply elem_of_app in Hp as [Hp | Hp].
    + case_bool_decide as Hk; [| by apply elem_of_nil in Hp].
      rewrite Hk in Hobs. destruct Hobs as [[= ?] | [= ?]]; congruence.
    + destruct (negb _); simpl in Hp; [| by apply elem_of_nil in Hp].
      case_bool_decide as Hk; [| by apply elem_of_nil in Hp].
      unfold price_pair in Hobs. injection Hk as Hq Hb.
      rewrite Hq, Hb in Hobs. destruct Hobs as [[= ? ?] | [= ? ?]]; congruence.
Qed.

(** C10 (amended).  For every instance constructed from an observation
    stream, every stored series is non-empty, and has strictly increasing
    dates when the stream is date-ascending; the last-element access and the
    access at [index - 1] after a positive [bisect] are in range; and
    [get_price_point] returns with at most one recursive call, which is made
    on a pair that has a stored series. *)
Theorem stored_series_invariant (s : list Price) (self : FavaPriceMap) :
  constructed s self →
  (∀ k l, _map self !! k = Some l →
     l ≠ []
     ∧ (date_ascending s → StronglySorted Z.lt (l.*1))
     ∧ (∃ p, list_getitem_last l = Ok p)
     ∧ (∀ d, ∃ index, bisect (mkDateKeyWrapper l) d = Ok index
             ∧ (index ≠ 0 → ∃ p, list_getitem l (index - 1) = Ok p)))
  ∧ (∀ bq date,
       (∃ v, get_price_point 2 self bq date = Ok v)
       ∧ (∀ depth, get_price_point (S (S depth)) self bq date
                   = get_price_point 2 self bq date))
  ∧ (∀ recur recur' base quote date,
       (∀ bq d, bq.1 ≠ bq.2 → is_Some (_map self !! bq) →
                recur bq d = recur' bq d) →
       via_currencies recur self base quote date (_currencies self)
       = via_currencies recur' self base quote date (_currencies self)).
Proof.
  intros Hc.
  pose proof (constructed_series_nonempty s self Hc) as Hne.
  split_and!.
  - intros k l Hl. split_and!.
    + by apply (Hne k).
    + intros Hs. revert Hl. rewrite (constructed_map s self k Hc).
      destruct (ingested s k) as [|p0 raw] eqn:Hing; [done |].
      intros [= <-]. apply keep_last_loop_increasing.
      rewrite <- Hing. by apply ingested_ascending.
    + destruct (last_getitem l (Hne k l Hl)) as (p & Hp & _). eauto.
    + intros d. apply bisect_getitem.
  - intros [base quote] date. split.
    + destruct (decide (base = quote)) as [-> | Hbq].
      * rewrite get_price_point_identity. eauto.
      * destruct (get_price_point_returns self 0 base quote date Hne Hbq)
          as (v & Hv & _). eauto.
    + intros depth. apply get_price_point_depth.
  - intros recur recur' base quote date Hrec.
    apply via_currencies_ext. intros bq d [H1 H2]. by apply Hrec.
Qed.

End PricesFacts.

(** ** The properties on the instances *)

Lemma index_of_constructed price_entries :
  constructed price_entries (index_of price_entries).
Proof.
  unfold index_of.
  destruct (FavaPriceMap_init_spec price_entries)
    as (pm & Hpm & _).
  rewrite Hpm. by exists pm.
Defined.

Local Open Scope string_scope.

(** Every instance the constructor may leave agrees with [index_of] up to
    the iteration order of the set. *)
Lemma constructed_index_of price_entries (self : FavaPriceMap) :
  constructed price_entries self →
  _map self = _map (index_of price_entries)
  ∧ _forward_pairs self = _forward_pairs (index_of price_entries)
  ∧ _currencies self ≡ₚ _currencies (index_of price_entries).
Proof.
  intros (pm & Hpm & Hmap & Hfw & Hperm). unfold index_of. by rewrite Hpm.
Qed.

(** C1.  Triangulation on [legs_stream]: the pair [(A, B)] has no series,
    [C] is the only third currency and both legs exist.  In whatever order
    the set of currencies is iterated, the query at date 5 finds the first
    leg at the pivot date 3 and then returns the point of the second leg
    [(C, B)] at that date, [(1, 4)]: the rate is the second leg's alone, not
    the product [2 * 4] of the two legs at the pivot, and the date is not the
    pivot date. *)
Theorem triangulation_returns_one_leg (self : FavaPriceMap) :
  constructed legs_stream self →
  get_all_prices self ("A", "B") = None
  ∧ get_price 2 self ("A", "C") (Some 3%Z) = Ok (Some 2%Q)
  ∧ get_price 2 self ("C", "B") (Some 3%Z) = Ok (Some 4%Q)
  ∧ get_price_point 2 self ("A", "B") (Some 5%Z) = Ok (Some 1%Z, Some 4%Q)
  ∧ get_price 2 self ("A", "B") (Some 5%Z) = Ok (Some 4%Q)
  ∧ ¬ (4 == 2 * 4)%Q.
Proof.
  intros Hc.
  destruct (constructed_index_of legs_stream self Hc) as (Hmap & _ & Hperm).
  destruct self as [cs fw m]. cbn [_map _currencies] in Hmap, Hperm. subst m.
  assert (_currencies (index_of legs_stream) = ["C"; "B"; "A"]) as Hcs
    by (vm_compute; reflexivity).
  rewrite Hcs in Hperm.
  assert (get_price_point 2
            (mkFavaPriceMap cs fw (_map (index_of legs_stream)))
            ("A", "B") (Some 5%Z) = Ok (Some 1%Z, Some 4%Q)) as Hpoint.
  { rewrite get_price_point_fallback;
      [| discriminate | vm_compute; reflexivity].
    cbn [_currencies]. rewrite (via_currencies_only _ _ _ _ _ _ "C").
    - vm_compute. reflexivity.
    - rewrite Hperm. by left.
    - intros c' Hc' Hne. rewrite Hperm in Hc'.
      apply elem_of_cons in Hc' as [Hc' | Hc']; [contradiction |].
      apply elem_of_cons in Hc' as [Hc' | Hc']; [right; exact Hc' |].
      apply elem_of_cons in Hc' as [Hc' | Hc']; [left; exact Hc' |].
      apply elem_of_nil in Hc'. contradiction. }
  split_and!; try (vm_compute; reflexivity); [done | |].
  - unfold get_price. by rewrite Hpoint.
  - unfold Qeq. simpl. lia.
Qed.

Lemma triangulation_returns_one_leg_witness :
  get_all_prices (index_of legs_stream) ("A", "B") = None
  ∧ get_price 2 (index_of legs_stream) ("A", "C") (Some 3%Z) = Ok (Some 2%Q)
  ∧ get_price 2 (index_of legs_stream) ("C", "B") (Some 3%Z) = Ok (Some 4%Q)
  ∧ get_price_point 2 (index_of legs_stream) ("A", "B") (Some 5%Z)
    = Ok (Some 1%Z, Some 4%Q)
  ∧ get_price 2 (index_of legs_stream) ("A", "B") (Some 5%Z) = Ok (Some 4%Q)
  ∧ ¬ (4 == 2 * 4)%Q.
Proof.
  apply (triangulation_returns_one_leg (index_of legs_stream)).
  apply index_of_constructed.
Defined.

(** Without a query date, on [same_day_legs_stream], the point returned for
    [(A, B)] is the one of the first leg [(A, C)] alone. *)
Example triangulation_without_date :
  get_all_prices (index_of same_day_legs_stream) ("A", "B") = None
  ∧ get_price_point 2 (index_of same_day_legs_stream) ("A", "B") None
    = Ok (Some 1%Z, Some 2%Q)
  ∧ get_price_point 2 (index_of same_day_legs_stream) ("A", "C") None
    = Ok (Some 1%Z, Some 2%Q)
  ∧ get_price_point 2 (index_of same_day_legs_stream) ("C", "B") None
    = Ok (Some 1%Z, Some 4%Q).
Proof. split_and!; vm_compute; reflexivity. Qed.

(** C2.  Canonical direction on a tie, on [tie_stream]: [(USD, EUR)] and
    [(EUR, USD)] are each observed once, [(USD, EUR)] first, and both have a
    series.  No direction is forward, and [commodity_pairs] lists neither
    pair: not the direction first seen, and, with both currencies operating,
    not the two directions its docstring announces for pairs of operating
    currencies. *)
Theorem tie_stream_lists_nothing :
  observation_count tie_stream ("USD", "EUR") = 1
  ∧ observation_count tie_stream ("EUR", "USD") = 1
  ∧ FavaPriceMap_init tie_stream = Ok (index_of tie_stream)
  ∧ get_all_prices (index_of tie_stream) ("USD", "EUR")
    = Some [(1%Z, 2%Q); (2%Z, 2%Q)]
  ∧ get_all_prices (index_of tie_stream) ("EUR", "USD")
    = Some [(1%Z, (1 # 2)%Q); (2%Z, (1 # 2)%Q)]
  ∧ _forward_pairs (index_of tie_stream) = []
  ∧ commodity_pairs (index_of tie_stream) [] = []
  ∧ commodity_pairs (index_of tie_stream) ["USD"; "EUR"] = []
  ∧ ¬ (("USD", "EUR") ∈ commodity_pairs (index_of tie_stream) ["USD"; "EUR"]).
Proof.
  split_and!; try (vm_compute; reflexivity).
  assert (commodity_pairs (index_of tie_stream) ["USD"; "EUR"] = []) as ->
    by (vm_compute; reflexivity).
  apply not_elem_of_nil.
Qed.

Lemma monotonic_date_lookup_witness :
  (∀ d, (20 ≤ d)%Z → (d < 30)%Z →
        get_price_point 1 (index_of three_day_stream) ("USD", "EUR") (Some d)
        = Ok (Some 20%Z, Some 4%Q))
  ∧ (∀ d, (d < 10)%Z →
          get_price_point 1 (index_of three_day_stream) ("USD", "EUR") (Some d)
          = Ok (None, None))
  ∧ get_price_point 1 (index_of three_day_stream) ("USD", "EUR") None
    = Ok (Some 30%Z, Some 5%Q).
Proof.
  apply (monotonic_date_lookup (index_of three_day_stream) "USD" "EUR"
           10 20 30 2%Q 4%Q 5%Q 0).
  - discriminate.
  - vm_compute. reflexivity.
  - lia.
  - lia.
Defined.

(** C5, as stated, fails on [same_day_stream]: the first observation gives
    [(A, B)] the rate 2 on day 1 and no observation of [(B, A)] exists, yet
    the rate returned for [(B, A)] on day 1 is [1 / 4], the inverse of the
    later observation of [(A, B)] on that day. *)
Lemma same_day_inverse_counterexample :
  observation 1 "A" 2 "B" ∈ same_day_stream
  ∧ date_ascending same_day_stream
  ∧ observation_count same_day_stream ("B", "A") = 0
  ∧ FavaPriceMap_init same_day_stream = Ok (index_of same_day_stream)
  ∧ get_price_point 1 (index_of same_day_stream) ("B", "A") (Some 1%Z)
    = Ok (Some 1%Z, Some (1 # 4)%Q)
  ∧ ¬ ((1 # 4) == 1 / 2)%Q.
Proof.
  split_and!; try (vm_compute; reflexivity).
  - by left.
  - unfold date_ascending. simpl. repeat constructor; lia.
  - unfold Qeq. simpl. lia.
Qed.

Lemma inverse_consistency_witness :
  get_price_point 1
    (index_of ([] ++ observation 1 "A" 2 "B"
                  :: [observation 1 "A" 0 "B"; observation 2 "B" 5 "A"]))
    ("B", "A") (Some 1%Z)
  = Ok (Some 1%Z, Some (1 / 2)%Q).
Proof.
  refine (inverse_consistency []
            [observation 1 "A" 0 "B"; observation 2 "B" 5 "A"]
            (index_of ([] ++ observation 1 "A" 2 "B"
                          :: [observation 1 "A" 0 "B"; observation 2 "B" 5 "A"]))
            "A" "B" 1%Z 2%Q 0 _ _ _ _ _).
  - unfold date_ascending. simpl. repeat constructor; lia.
  - apply index_of_constructed.
  - discriminate.
  - reflexivity.
  - intros o Ho Hd.
    apply elem_of_cons in Ho as [-> | Ho]; [split; [discriminate | reflexivity] |].
    apply list_elem_of_singleton in Ho as ->. discriminate.
Defined.

(** On [same_day_stream] the day has two ingested points and one stored
    point, the later one. *)
Example same_day_collapse_example :
  on_date 1%Z (ingested same_day_stream ("A", "B")) = [(1%Z, 2%Q); (1%Z, 4%Q)]
  ∧ _map (index_of same_day_stream) !! ("A", "B") = Some [(1%Z, 4%Q)].
Proof. split; vm_compute; reflexivity. Qed.

Lemma get_all_prices_raw_witness :
  (∀ k, get_all_prices (index_of legs_stream) k = _map (index_of legs_stream) !! k
        ∧ get_all_prices (index_of legs_stream) k
          = stored_series (ingested legs_stream k))
  ∧ (∀ A B C, A ≠ C → B ≠ C →
       (∀ o, o ∈ legs_stream → price_pair o = (A, C) ∨ price_pair o = (C, B)) →
       get_all_prices (index_of legs_stream) (A, B) = None).
Proof.
  apply (get_all_prices_raw legs_stream).
  apply index_of_constructed.
Defined.

(** C10, as stated, fails on [unordered_stream]: the series stored for
    [(A, B)] is dated 5 then 3. *)
Lemma unordered_stream_counterexample :
  constructed unordered_stream (index_of unordered_stream)
  ∧ _map (index_of unordered_stream) !! ("A", "B") = Some [(5%Z, 1%Q); (3%Z, 1%Q)]
  ∧ ¬ StronglySorted Z.lt ([(5%Z, 1%Q); (3%Z, 1%Q)].*1).
Proof.
  split_and!.
  - apply index_of_constructed.
  - vm_compute. reflexivity.
  - simpl. intros Hs. apply StronglySorted_inv in Hs as [_ Hall].
    apply Forall_cons in Hall as [Hlt _]. lia.
Qed.

Lemma stored_series_invariant_witness :
  (∀ k l, _map (index_of three_day_stream) !! k = Some l →
     l ≠ []
     ∧ (date_ascending three_day_stream → StronglySorted Z.lt (l.*1))
     ∧ (∃ p, list_getitem_last l = Ok p)
     ∧ (∀ d, ∃ index, bisect (mkDateKeyWrapper l) d = Ok index
             ∧ (index ≠ 0 → ∃ p, list_getitem l (index - 1) = Ok p)))
  ∧ (∀ bq date,
       (∃ v, get_price_point 2 (index_of three_day_stream) bq date = Ok v)
       ∧ (∀ depth,
            get_price_point (S (S depth)) (index_of three_day_stream) bq date
            = get_price_point 2 (index_of three_day_stream) bq date))
  ∧ (∀ recur recur' base quote date,
       (∀ bq d, bq.1 ≠ bq.2 →
                is_Some (_map (index_of three_day_stream) !! bq) →
                recur bq d = recur' bq d) →
       via_currencies recur (index_of three_day_stream) base quote date
         (_currencies (index_of three_day_stream))
       = via_currencies recur' (index_of three_day_stream) base quote date
           (_currencies (index_of three_day_stream))).
Proof.
  apply (stored_series_invariant three_day_stream).
  apply index_of_constructed.
Defined.

(** * Further results on the price map *)

Local Close Scope string_scope.

Section MoreFacts.

Context {Decimal : Type} {decimal_ops : DecimalOps Decimal}.

Local Abbreviation PricePoint := (date * Decimal)%type.
Local Abbreviation PointResult := (option date * option Decimal)%type.
Local Abbreviation Price := (@Price Decimal).
Local Abbreviation DateKeyWrapper := (@DateKeyWrapper Decimal).
Local Abbreviation FavaPriceMap := (@FavaPriceMap Decimal).

(** ** The constructor and its helpers *)

Lemma keep_last_loop_sublist (last0 : PricePoint) rest :
  keep_last_loop last0 rest `sublist_of` last0 :: rest.
Proof.
  revert last0. induction rest as [|price rest IH]; intros last0; simpl; [done |].
  destruct (price.1 >? last0.1)%Z.
  - apply sublist_skip, IH.
  - apply sublist_cons, IH.
Qed.

(** X2.  On a non-empty list, sorted or not, the generator yields a
    subsequence of its input that ends with the last point of the input; on
    the empty list it raises. *)
Theorem keep_last_per_day_keeps_latest (p : PricePoint) (rest : list PricePoint) :
  _keep_last_per_day ([] : list PricePoint) = Raise RuntimeError
  ∧ ∃ l, _keep_last_per_day (p :: rest) = Ok l
         ∧ l `sublist_of` p :: rest
         ∧ last l = last (p :: rest).
Proof.
  split; [done |]. exists (keep_last_loop p rest). split_and!; [done | |].
  - apply keep_last_loop_sublist.
  - apply keep_last_loop_last.
Qed.

Lemma keep_last_loop_increasing_id (last0 : PricePoint) rest :
  StronglySorted Z.lt ((last0 :: rest).*1) →
  keep_last_loop last0 rest = last0 :: rest.
Proof.
  revert last0. induction rest as [|price rest IH]; intros last0 Hs; [done |].
  apply StronglySorted_inv in Hs as [Hs Hall].
  apply Forall_cons in Hall as [Hlt _]. simpl.
  rewrite (proj2 (Z.gtb_lt _ _) Hlt). f_equal. by apply IH.
Qed.

(** X3.  Collapsing is idempotent on input ordered by date: a second pass
    over the yield of the generator returns it unchanged. *)
Theorem keep_last_per_day_idempotent (prices l : list PricePoint) :
  StronglySorted Z.le (prices.*1) →
  _keep_last_per_day prices = Ok l →
  _keep_last_per_day l = Ok l.
Proof.
  intros Hs. destruct prices as [|p rest]; [done |]. intros [= <-].
  pose proof (keep_last_loop_increasing p rest Hs) as Hinc.
  destruct (keep_last_loop p rest) as [|q l'] eqn:Hl.
  { by apply keep_last_loop_nonempty in Hl. }
  simpl. f_equal. by apply keep_last_loop_increasing_id.
Qed.

(** ** The binary search *)

Lemma filter_length_prefix {A} (P : A → Prop) `{∀ x, Decision (P x)}
    (l : list A) : ∀ k,
  k ≤ length l →
  (∀ i p, i < k → l !! i = Some p → P p) →
  (∀ i p, k ≤ i → l !! i = Some p → ¬ P p) →
  length (filter P l) = k.
Proof.
  induction l as [|a l IH]; intros k Hk Hlow Hhigh.
  - simpl in Hk. rewrite filter_nil. simpl. lia.
  - rewrite filter_cons. destruct k as [|k].
    + rewrite decide_False by (apply (Hhigh 0); [lia | done]).
      apply IH; [lia | intros; lia |].
      intros i p _ Hp. apply (Hhigh (S i)); [lia | done].
    + rewrite decide_True by (apply (Hlow 0); [lia | done]).
      simpl. f_equal. apply IH; [simpl in Hk; lia | |].
      * intros i p Hi Hp. apply (Hlow (S i)); [lia | done].
      * intros i p Hi Hp. apply (Hhigh (S i)); [lia | done].
Qed.

(** X4.  On a series ordered by date, [bisect] through [DateKeyWrapper]
    returns the number of points dated on or before the query date. *)
Theorem bisect_counts (l : list PricePoint) (x : date) :
  StronglySorted Z.le (l.*1) →
  bisect (mkDateKeyWrapper l) x
  = Ok (length (filter (λ p : PricePoint, (p.1 ≤ x)%Z) l)).
Proof.
  intros Hs.
  destruct (bisect_ascending l x Hs) as (k & -> & Hlen & Hlow & Hhigh).
  f_equal. symmetry. apply filter_length_prefix; [done | done |].
  intros i p Hi Hp. specialize (Hhigh i p Hi Hp). lia.
Qed.

(** The loop keeps: [lo] is 0 or the point left of [lo] is dated on or
    before [x]. *)
Lemma bisect_loop_left (a : DateKeyWrapper) (x : date) fuel : ∀ lo hi k,
  (lo = 0 ∨ ∃ p, inner a !! (lo - 1) = Some p ∧ (p.1 ≤ x)%Z) →
  bisect_loop fuel a x lo hi = Ok k →
  k = 0 ∨ ∃ p, inner a !! (k - 1) = Some p ∧ (p.1 ≤ x)%Z.
Proof.
  induction fuel as [|fuel IH]; intros lo hi k Hlo.
  - rewrite bisect_loop_O. destruct (lo <? hi); [done |]. by intros [= <-].
  - rewrite bisect_loop_S. destruct (lo <? hi); [| by intros [= <-]].
    unfold DateKeyWrapper_getitem, list_getitem.
    destruct (inner a !! ((lo + hi) `div` 2)) as [p|] eqn:Hp; [| done].
    rewrite !bind_Ok. destruct (x <? p.1)%Z eqn:Hx.
    + by apply IH.
    + apply IH. right. exists p. apply Z.ltb_ge in Hx.
      replace ((lo + hi) `div` 2 + 1 - 1) with ((lo + hi) `div` 2) by lia.
      done.
Qed.

Lemma bisect_in_range_aux (l : list PricePoint) (x : date) :
  ∃ k, bisect (mkDateKeyWrapper l) x = Ok k
       ∧ (k ≠ 0 → ∃ p, l !! (k - 1) = Some p ∧ (p.1 ≤ x)%Z).
Proof.
  destruct (bisect_returns (mkDateKeyWrapper l) x) as (k & Hk & Hlen).
  exists k. split; [done |]. intros Hk0.
  destruct (bisect_loop_left (mkDateKeyWrapper l) x _ _ _ k (or_introl eq_refl) Hk)
    as [-> | Hp]; done.
Qed.

(** X5.  On every list, ordered or not, [bisect] through [DateKeyWrapper]
    returns an index within [0 .. len]: it reads no position out of range,
    ends within [len] iterations, and a positive result [k] has a point at
    [k - 1] that is dated on or before the query date. *)
Theorem bisect_in_range (l : list PricePoint) (x : date) :
  ∃ k, bisect (mkDateKeyWrapper l) x = Ok k
       ∧ k ≤ length l
       ∧ (k ≠ 0 → ∃ p, l !! (k - 1) = Some p ∧ (p.1 ≤ x)%Z).
Proof.
  destruct (bisect_returns (mkDateKeyWrapper l) x) as (k & Hk & Hlen).
  exists k. split_and!; [done | done |]. intros Hk0.
  destruct (bisect_loop_left (mkDateKeyWrapper l) x _ _ _ k (or_introl eq_refl) Hk)
    as [-> | Hp]; done.
Qed.

(** ** Forward pairs and the pair listing *)

Lemma constructed_fields price_entries (self : FavaPriceMap) :
  constructed price_entries self →
  _forward_pairs self
  = forward_pairs_of (st_counts (foldl ingest ingest_start price_entries))
  ∧ _currencies self
    ≡ₚ st_currencies (foldl ingest ingest_start price_entries).
Proof.
  intros (pm & Hpm & _ & -> & ->). unfold FavaPriceMap_init in Hpm.
  destruct (collapse_all _) as [m| |]; [| done..].
  rewrite bind_Ok in Hpm. by injection Hpm as <-.
Qed.

Lemma forward_filter_sublist (keep : Currency → Currency → nat → bool)
    (counts : list (BaseQuote * nat)) :
  omap (λ item : BaseQuote * nat,
          let '((base, quote), count) := item in
          if keep base quote count then Some (base, quote) else None)
       counts
  `sublist_of` counts.*1.
Proof.
  induction counts as [|[[b q] n] counts IH]; [done |].
  cbn [omap list_omap]. rewrite fmap_cons. cbn [fst].
  destruct (keep b q n); [by apply sublist_skip | by apply sublist_cons].
Qed.

Lemma constructed_forward_pairs_NoDup price_entries (self : FavaPriceMap) :
  constructed price_entries self → NoDup (_forward_pairs self).
Proof.
  intros Hc. destruct (constructed_fields price_entries self Hc) as [-> _].
  eapply sublist_NoDup.
  - apply (foldl_ingest_counts_NoDup price_entries ingest_start). constructor.
  - apply (forward_filter_sublist
             (λ base quote count,
                Counter_get (st_counts (foldl ingest ingest_start price_entries))
                  (quote, base) <? count)).
Qed.

(** X6.  At most one direction of a pair is forward: the reverse of a forward
    pair is not forward, and a reflexive pair never is. *)
Theorem forward_pairs_one_direction (s : list Price) (self : FavaPriceMap)
    (A B : Currency) :
  constructed s self →
  ((A, B) ∈ _forward_pairs self → (B, A) ∉ _forward_pairs self)
  ∧ ((A, A) ∉ _forward_pairs self).
Proof.
  intros Hc. split.
  - rewrite (constructed_forward_pairs s self A B Hc).
    rewrite (constructed_forward_pairs s self B A Hc). lia.
  - rewrite (constructed_forward_pairs s self A A Hc). lia.
Qed.

Lemma observation_count_positive (s : list Price) k :
  0 < observation_count s k → ∃ o, o ∈ s ∧ price_pair o = k.
Proof.
  unfold observation_count. intros Hpos.
  destruct (filter (λ price : Price, price_pair price = k) s) as [|o l] eqn:Hf.
  { simpl in Hpos. lia. }
  assert (o ∈ filter (λ price : Price, price_pair price = k) s) as Ho
    by (rewrite Hf; by left).
  apply list_elem_of_filter in Ho as [? ?]. eauto.
Qed.

Lemma points_of_own (k : BaseQuote) (o : Price) :
  price_pair o = k → (price_date o, number (price_amount o)) ∈ points_of k o.
Proof.
  intros Hk. unfold points_of. rewrite bool_decide_eq_true_2 by done.
  apply elem_of_app. left. by left.
Qed.

(** X7.  Every forward pair has price data: it was observed at least once,
    and [get_all_prices] returns a non-empty series for it. *)
Theorem forward_pair_has_series (s : list Price) (self : FavaPriceMap)
    (bq : BaseQuote) :
  constructed s self → bq ∈ _forward_pairs self →
  0 < observation_count s bq
  ∧ ∃ l, get_all_prices self bq = Some l ∧ l ≠ [].
Proof.
  intros Hc Hfw. destruct bq as [b q].
  apply (constructed_forward_pairs s self b q Hc) in Hfw.
  split; [lia |].
  destruct (observation_count_positive s (b, q)) as (o & Ho & Hk); [lia |].
  unfold get_all_prices. rewrite (constructed_map s self (b, q) Hc).
  destruct (ingested s (b, q)) as [|p raw] eqn:Hing.
  - exfalso. eapply elem_of_nil. rewrite <- Hing.
    apply elem_of_ingested. exists o. split; [by apply points_of_own | done].
  - eexists. split; [done |]. apply keep_last_loop_nonempty.
Qed.

Lemma reversed_involutive (bq : BaseQuote) : reversed (reversed bq) = bq.
Proof. by destruct bq. Qed.

#[local] Instance reversed_inj : Inj (=) (=) reversed.
Proof. intros [a b] [c d] [= -> ->]. done. Qed.

(** X8.  [commodity_pairs] lists every pair at most once, whatever the
    operating currencies. *)
Theorem commodity_pairs_NoDup (s : list Price) (self : FavaPriceMap)
    (operating_currencies : list Currency) :
  constructed s self → NoDup (commodity_pairs self operating_currencies).
Proof.
  intros Hc. rewrite commodity_pairs_unfold, sorted_Permutation.
  pose proof (constructed_forward_pairs_NoDup s self Hc) as Hnd.
  apply NoDup_app. split_and!; [done | |].
  - intros [b q] Hin Hrev.
    apply list_elem_of_fmap in Hrev as ([q' b'] & [= -> ->] & Hin').
    apply list_elem_of_filter in Hin' as [_ Hin'].
    apply (constructed_forward_pairs s self b' q' Hc) in Hin.
    apply (constructed_forward_pairs s self q' b' Hc) in Hin'. lia.
  - apply (NoDup_fmap_2 reversed). by apply NoDup_filter.
Qed.

(** X9.  [commodity_pairs] depends on the operating currencies as a set only:
    their order and repetitions do not change the list. *)
Theorem commodity_pairs_operating_set (self : FavaPriceMap)
    (operating_currencies operating_currencies' : list Currency) :
  (∀ c, c ∈ operating_currencies ↔ c ∈ operating_currencies') →
  commodity_pairs self operating_currencies
  = commodity_pairs self operating_currencies'.
Proof.
  intros Hset. rewrite !commodity_pairs_unfold. do 3 f_equal.
  apply list_filter_iff. intros bq. unfold both_operating. by rewrite !Hset.
Qed.

(** ** The stored series and the observations *)

Lemma points_of_elem (k : BaseQuote) (o : Price) (p : PricePoint) :
  p ∈ points_of k o ↔
  p.1 = price_date o
  ∧ ((price_pair o = k ∧ p.2 = number (price_amount o))
     ∨ (reversed (price_pair o) = k
        ∧ dec_eqb (number (price_amount o)) ZERO = false
        ∧ p.2 = dec_div ONE (number (price_amount o)))).
Proof.
  unfold points_of, reversed, price_pair. simpl. rewrite elem_of_app.
  destruct p as [d r]. simpl. split.
  - intros [Hp | Hp].
    + case_bool_decide as Hk; [| by apply elem_of_nil in Hp].
      apply list_elem_of_singleton in Hp as [= -> ->]. auto.
    + destruct (dec_eqb _ ZERO) eqn:Hz; simpl in Hp;
        [by apply elem_of_nil in Hp |].
      case_bool_decide as Hk; [| by apply elem_of_nil in Hp].
      apply list_elem_of_singleton in Hp as [= -> ->]. auto.
  - intros [-> [[Hk ->] | (Hk & Hz & ->)]].
    + left. rewrite bool_decide_eq_true_2 by done. by left.
    + right. rewrite Hz. simpl. rewrite bool_decide_eq_true_2 by done. by left.
Qed.

Lemma constructed_series_iff (s : list Price) (self : FavaPriceMap) (k : BaseQuote) :
  constructed s self →
  is_Some (get_all_prices self k) ↔
  ∃ o, o ∈ s
       ∧ (price_pair o = k
          ∨ (reversed (price_pair o) = k
             ∧ dec_eqb (number (price_amount o)) ZERO = false)).
Proof.
  intros Hc. unfold get_all_prices. rewrite (constructed_map s self k Hc). split.
  - intros [l Hl]. destruct (ingested s k) as [|p raw] eqn:Hing; [done |].
    assert (p ∈ ingested s k) as Hp by (rewrite Hing; by left).
    apply elem_of_ingested in Hp as (o & Hp & Ho).
    apply points_of_elem in Hp as [_ Hp]. exists o. split; [done |]. tauto.
  - intros (o & Ho & Hk).
    assert (∃ p, p ∈ ingested s k) as [p Hp].
    { destruct Hk as [Hk | [Hk Hz]].
      - exists (price_date o, number (price_amount o)).
        apply elem_of_ingested. exists o. split; [| done].
        apply points_of_elem. auto.
      - exists (price_date o, dec_div ONE (number (price_amount o))).
        apply elem_of_ingested. exists o. split; [| done].
        apply points_of_elem. simpl. auto. }
    destruct (ingested s k) as [|p0 raw]; [by apply elem_of_nil in Hp |].
    by eexists.
Qed.

(** X10.  A pair has a series exactly when it was observed, or its reverse
    was observed with a non-zero rate: a zero rate yields no inverse point. *)
Theorem series_exists_iff (s : list Price) (self : FavaPriceMap) (k : BaseQuote) :
  constructed s self →
  is_Some (get_all_prices self k) ↔
  ∃ o, o ∈ s
       ∧ (price_pair o = k
          ∨ (reversed (price_pair o) = k
             ∧ dec_eqb (number (price_amount o)) ZERO = false)).
Proof. apply constructed_series_iff. Qed.

(** X11.  Every stored point stems from an observation of its date: it
    carries the rate of an observation of the pair, or the inverse of the
    non-zero rate of an observation of the reverse pair. *)
Theorem stored_points_observed (s : list Price) (self : FavaPriceMap)
    (k : BaseQuote) (l : list PricePoint) (p : PricePoint) :
  constructed s self → get_all_prices self k = Some l → p ∈ l →
  ∃ o, o ∈ s ∧ price_date o = p.1
       ∧ ((price_pair o = k ∧ p.2 = number (price_amount o))
          ∨ (reversed (price_pair o) = k
             ∧ dec_eqb (number (price_amount o)) ZERO = false
             ∧ p.2 = dec_div ONE (number (price_amount o)))).
Proof.
  intros Hc. unfold get_all_prices. rewrite (constructed_map s self k Hc).
  destruct (ingested s k) as [|p0 raw] eqn:Hing; [done |].
  intros [= <-] Hp. apply keep_last_loop_elem_of in Hp. rewrite <- Hing in Hp.
  apply elem_of_ingested in Hp as (o & Hp & Ho).
  apply points_of_elem in Hp as [Hd Hp]. exists o. by split_and!.
Qed.

Lemma keep_last_loop_fmap (f : PricePoint → PricePoint) (last0 : PricePoint) rest :
  (∀ p, (f p).1 = p.1) →
  keep_last_loop (f last0) (f <$> rest) = f <$> keep_last_loop last0 rest.
Proof.
  intros Hf. revert last0.
  induction rest as [|price rest IH]; intros last0; [done |].
  rewrite fmap_cons. simpl. rewrite !Hf.
  destruct (price.1 >? last0.1)%Z; [rewrite fmap_cons |]; by rewrite IH.
Qed.

Lemma stored_series_fmap (f : PricePoint → PricePoint) (l : list PricePoint) :
  (∀ p, (f p).1 = p.1) →
  stored_series (f <$> l) = fmap (M:=list) f <$> stored_series l.
Proof.
  intros Hf. destruct l as [|p l]; [done |].
  rewrite fmap_cons. simpl. by rewrite keep_last_loop_fmap.
Qed.

(** X12.  When a pair [(A, B)] of distinct currencies is only observed in
    that direction and with non-zero rates, the series of [(B, A)] is the
    series of [(A, B)] with every rate inverted, date by date. *)
Theorem inverse_series (s : list Price) (self : FavaPriceMap) (A B : Currency) :
  constructed s self → A ≠ B →
  (∀ o, o ∈ s → price_pair o ≠ (B, A)) →
  (∀ o, o ∈ s → price_pair o = (A, B) →
        dec_eqb (number (price_amount o)) ZERO = false) →
  get_all_prices self (B, A)
  = fmap (M:=list) inverse_point <$> get_all_prices self (A, B).
Proof.
  intros Hc Hne Hrev Hrate. unfold get_all_prices.
  rewrite !(constructed_map s self _ Hc).
  rewrite <- stored_series_fmap by done. f_equal.
  clear Hc. induction s as [|o s IH]; [done |].
  rewrite !ingested_cons, fmap_app, <- IH.
  2: { intros o' Ho'. apply Hrev. by right. }
  2: { intros o' Ho'. apply Hrate. by right. }
  f_equal. unfold points_of.
  assert (o ∈ o :: s) as Ho by by left.
  specialize (Hrev o Ho). specialize (Hrate o Ho).
  rewrite (bool_decide_eq_false_2 (price_pair o = (B, A))) by done.
  destruct (decide (price_pair o = (A, B))) as [Hab | Hab].
  - rewrite (bool_decide_eq_true_2 (price_pair o = (A, B))) by done.
    rewrite (Hrate Hab). simpl.
    unfold price_pair in Hab. injection Hab as Hcur Hquote.
    rewrite Hcur, Hquote.
    rewrite bool_decide_eq_true_2 by done.
    rewrite bool_decide_eq_false_2 by congruence. done.
  - rewrite (bool_decide_eq_false_2 (price_pair o = (A, B))) by done.
    assert (bool_decide
              ((amount_currency (price_amount o), price_currency o) = (B, A))
            = false) as ->.
    { apply bool_decide_eq_false_2. intros [= Hq Hb]. apply Hab.
      unfold price_pair. by rewrite Hq, Hb. }
    assert (bool_decide
              ((amount_currency (price_amount o), price_currency o) = (A, B))
            = false) as ->.
    { apply bool_decide_eq_false_2. intros [= Hq Hb]. apply Hrev.
      unfold price_pair. by rewrite Hq, Hb. }
    by rewrite !andb_false_r.
Qed.

(** ** The point lookup *)

(** X13.  Without a query date, the lookup on a pair of distinct currencies
    returns the last point ingested for the pair, whether or not the stream
    is ordered by date. *)
Theorem latest_price_is_last_ingested (s : list Price) (self : FavaPriceMap)
    (base quote : Currency) (p : PricePoint) (depth : nat) :
  constructed s self → base ≠ quote →
  last (ingested s (base, quote)) = Some p →
  get_price_point (S depth) self (base, quote) None = Ok (Some p.1, Some p.2).
Proof.
  intros Hc Hne Hlast.
  pose proof (constructed_map s self (base, quote) Hc) as Hmap.
  destruct (ingested s (base, quote)) as [|p0 raw] eqn:Hing; [done |].
  apply (get_price_point_direct_latest depth self base quote _ p Hne Hmap).
  by rewrite keep_last_loop_last.
Qed.

(** X14.  On a series ordered by date, the lookup at a date returns the
    stored point with the latest date on or before the query date, and no
    data exactly when every stored point is dated after it. *)
Theorem direct_lookup_most_recent (self : FavaPriceMap) (base quote : Currency)
    (l : list PricePoint) (d : date) (depth : nat) :
  base ≠ quote → _map self !! (base, quote) = Some l →
  StronglySorted Z.le (l.*1) →
  (get_price_point (S depth) self (base, quote) (Some d) = Ok (None, None)
   ∧ ∀ q, q ∈ l → (d < q.1)%Z)
  ∨ ∃ p, get_price_point (S depth) self (base, quote) (Some d)
         = Ok (Some p.1, Some p.2)
         ∧ p ∈ l ∧ (p.1 ≤ d)%Z
         ∧ ∀ q, q ∈ l → (q.1 ≤ d)%Z → (q.1 ≤ p.1)%Z.
Proof.
  intros Hne Hl Hs. rewrite (get_price_point_direct _ _ _ _ _ l) by done.
  destruct (bisect_ascending l d Hs) as (k & -> & Hlen & Hlow & Hhigh).
  rewrite bind_Ok. destruct k as [|k].
  - left. split; [done |]. intros q Hq.
    apply list_elem_of_lookup in Hq as [i Hi]. apply (Hhigh i); [lia | done].
  - right. cbn [Nat.eqb]. unfold list_getitem.
    replace (S k - 1) with k by lia.
    destruct (lookup_lt_is_Some_2 l k) as [p Hp]; [lia |].
    rewrite Hp, bind_Ok. exists p. split_and!; [done | | |].
    + by eapply list_elem_of_lookup_2.
    + apply (Hlow k); [lia | done].
    + intros q Hq Hqd. apply list_elem_of_lookup in Hq as [i Hi].
      destruct (decide (i ≤ k)) as [Hik | Hik].
      * by apply (series_lookup_le l i k).
      * assert (S k ≤ i) as Hki by lia.
        specialize (Hhigh i q Hki Hi). lia.
Qed.

(** X15.  On a series ordered by date, a query at any date on or after the
    date of the latest point returns that point, as the query without a date
    does. *)
Theorem late_date_is_latest (self : FavaPriceMap) (base quote : Currency)
    (l : list PricePoint) (p : PricePoint) (d : date) (depth : nat) :
  base ≠ quote → _map self !! (base, quote) = Some l →
  StronglySorted Z.le (l.*1) → last l = Some p → (p.1 ≤ d)%Z →
  get_price_point (S depth) self (base, quote) (Some d)
  = get_price_point (S depth) self (base, quote) None.
Proof.
  intros Hne Hl Hs Hlast Hd.
  rewrite (get_price_point_direct_latest depth self base quote l p) by done.
  rewrite last_lookup in Hlast.
  apply (get_price_point_direct_between depth self base quote l d
           (pred (length l)) p); try done.
  intros q Hq. apply lookup_lt_Some in Hq.
  destruct l; simpl in *; [done | lia].
Qed.

Lemma direct_lookup_bound depth (self : FavaPriceMap) base quote l d e r :
  base ≠ quote → _map self !! (base, quote) = Some l →
  get_price_point (S depth) self (base, quote) (Some d) = Ok (Some e, r) →
  (e ≤ d)%Z.
Proof.
  intros Hne Hl. rewrite (get_price_point_direct _ _ _ _ _ l) by done.
  destruct (bisect_in_range_aux l d) as (k & -> & Hk).
  rewrite bind_Ok. destruct k as [|k]; [done |].
  cbn [Nat.eqb]. destruct (Hk (Nat.neq_succ_0 k)) as (p & Hp & Hpd).
  unfold list_getitem. rewrite Hp, bind_Ok. by intros [= <- _].
Qed.

Lemma via_currencies_bound
    (recur : BaseQuote → option date → result PointResult)
    (self : FavaPriceMap) base quote d e r :
  (∀ bq d' e' r', recur bq (Some d') = Ok (Some e', r') → (e' ≤ d')%Z) →
  ∀ currencies,
    via_currencies recur self base quote (Some d) currencies = Ok (Some e, r) →
    (e ≤ d)%Z.
Proof.
  intros Hrec currencies.
  induction currencies as [|currency rest IH]; [done |].
  rewrite via_currencies_cons.
  destruct (String.eqb currency base || String.eqb currency quote); [done |].
  destruct (_map self !! (base, currency)) as [l1|]; [| done].
  destruct (_map self !! (currency, quote)) as [l2|]; [| done].
  destruct (bisect_in_range_aux l1 d) as (k & -> & Hk).
  rewrite bind_Ok. destruct k as [|k]; [done |].
  cbn [Nat.eqb]. destruct (Hk (Nat.neq_succ_0 k)) as (p & Hp & Hpd).
  unfold list_getitem. rewrite Hp, bind_Ok.
  intros Hr. apply Hrec in Hr. lia.
Qed.

(** X16.  A lookup at a date never returns a point dated after the query
    date, on any instance, directly or through a third currency. *)
Theorem lookup_not_after_query (depth : nat) (self : FavaPriceMap)
    (bq : BaseQuote) (d e : date) (r : option Decimal) :
  get_price_point depth self bq (Some d) = Ok (Some e, r) → (e ≤ d)%Z.
Proof.
  revert bq d e r. induction depth as [|depth IH]; intros [base quote] d e r.
  { done. }
  destruct (decide (base = quote)) as [-> | Hne].
  { by rewrite get_price_point_identity. }
  destruct (_map self !! (base, quote)) as [l|] eqn:Hl.
  - by apply (direct_lookup_bound depth self base quote l).
  - rewrite get_price_point_fallback by done.
    apply via_currencies_bound. apply IH.
Qed.

Lemma direct_lookup_member depth (self : FavaPriceMap) base quote l date e r :
  base ≠ quote → _map self !! (base, quote) = Some l →
  get_price_point (S depth) self (base, quote) date = Ok (Some e, Some r) →
  (e, r) ∈ l.
Proof.
  intros Hne Hl. rewrite (get_price_point_direct _ _ _ _ _ l) by done.
  destruct date as [d|].
  - destruct (bisect (mkDateKeyWrapper l) d) as [k| |]; [| done..].
    rewrite bind_Ok. destruct (k =? 0); [done |].
    unfold list_getitem.
    destruct (l !! (k - 1)) as [[e' r']|] eqn:Hp; [| done].
    rewrite bind_Ok. intros [= <- <-]. by eapply list_elem_of_lookup_2.
  - unfold list_getitem_last.
    destruct (last l) as [[e' r']|] eqn:Hp; [| done].
    rewrite bind_Ok. intros [= <- <-]. by apply last_Some_elem_of.
Qed.

Lemma fallback_leg_point (depth : nat) (self : FavaPriceMap)
    (base quote : Currency) (e : date) (r : Decimal) (date : option date) :
  base ≠ quote → _map self !! (base, quote) = None →
  get_price_point (S (S depth)) self (base, quote) date = Ok (Some e, Some r) →
  ∃ C l1 l2, C ∈ _currencies self ∧ C ≠ base ∧ C ≠ quote
             ∧ _map self !! (base, C) = Some l1
             ∧ _map self !! (C, quote) = Some l2
             ∧ ((e, r) ∈ l2 ∨ (date = None ∧ (e, r) ∈ l1)).
Proof.
  intros Hne Hl. rewrite get_price_point_fallback by done.
  generalize (_currencies self) as currencies.
  induction currencies as [|currency rest IH]; [done |].
  rewrite via_currencies_cons.
  destruct (String.eqb currency base || String.eqb currency quote) eqn:Hin.
  { intros Hr. destruct (IH Hr) as (C & l1 & l2 & HC & Hrest).
    exists C, l1, l2. split; [by right | done]. }
  apply orb_false_iff in Hin as [Hb Hq].
  apply String.eqb_neq in Hb, Hq.
  destruct (_map self !! (base, currency)) as [l1|] eqn:H1.
  2: { intros Hr. destruct (IH Hr) as (C & l1 & l2 & HC & Hrest).
       exists C, l1, l2. split; [by right | done]. }
  destruct (_map self !! (currency, quote)) as [l2|] eqn:H2.
  2: { intros Hr. destruct (IH Hr) as (C & l1' & l2 & HC & Hrest).
       exists C, l1', l2. split; [by right | done]. }
  intros Hr. exists currency, l1, l2.
  split_and!; [by left | done | done | done | done |].
  destruct date as [d|].
  - left. destruct (bisect (mkDateKeyWrapper l1) d) as [k| |]; [| done..].
    rewrite bind_Ok in Hr. destruct (k =? 0); [done |].
    destruct (list_getitem l1 (k - 1)) as [p| |]; [| done..].
    rewrite bind_Ok in Hr.
    by apply (direct_lookup_member depth self currency quote l2 (Some p.1)).
  - destruct (list_getitem_last l1) as [p1| |]; [| done..].
    destruct (list_getitem_last l2) as [p2| |]; [| done..].
    rewrite !bind_Ok in Hr. destruct (p1.1 <? p2.1)%Z.
    + left.
      by apply (direct_lookup_member depth self currency quote l2 (Some p1.1)).
    + right. split; [done |].
      apply (direct_lookup_member depth self base currency l1 (Some p2.1));
        [congruence | done | done].
Qed.

(** X17.  For a pair of distinct currencies without a series, a point the
    lookup returns is a stored point of one leg through a third currency [C]
    of the currency set whose two legs [(base, C)] and [(C, quote)] both
    have a series: a point of [(C, quote)], or, when no date is given, of
    [(base, C)]. *)
Theorem fallback_returns_leg_point (depth : nat) (self : FavaPriceMap)
    (base quote : Currency) (e : date) (r : Decimal) (date : option date) :
  base ≠ quote → _map self !! (base, quote) = None →
  get_price_point (S (S depth)) self (base, quote) date = Ok (Some e, Some r) →
  ∃ C l1 l2, C ∈ _currencies self ∧ C ≠ base ∧ C ≠ quote
             ∧ _map self !! (base, C) = Some l1
             ∧ _map self !! (C, quote) = Some l2
             ∧ ((e, r) ∈ l2 ∨ (date = None ∧ (e, r) ∈ l1)).
Proof. apply fallback_leg_point. Qed.

(** ** The set of currencies *)

Lemma set_add_elem (s : list Currency) x c : c ∈ set_add s x ↔ c ∈ s ∨ c = x.
Proof.
  unfold set_add. case_bool_decide as Hx.
  - split; [by left | intros [? | ->]; done].
  - rewrite elem_of_app, list_elem_of_singleton. done.
Qed.

Lemma set_add_NoDup (s : list Currency) x : NoDup s → NoDup (set_add s x).
Proof.
  intros Hnd. unfold set_add. case_bool_decide as Hx; [done |].
  apply NoDup_app. split_and!; [done | | apply NoDup_singleton].
  intros y Hy Hy'. apply list_elem_of_singleton in Hy' as ->. done.
Qed.

Lemma foldl_ingest_currencies (s : list Price) : ∀ st,
  (NoDup (st_currencies st) → NoDup (st_currencies (foldl ingest st s)))
  ∧ ∀ c, c ∈ st_currencies (foldl ingest st s) ↔
         c ∈ st_currencies st
         ∨ ∃ o, o ∈ s ∧ (c = price_currency o
                         ∨ c = amount_currency (price_amount o)).
Proof.
  induction s as [|o s IH]; intros st.
  - split; [done |]. intros c. split; [by left |].
    intros [? | (o & Ho & _)]; [done | by apply elem_of_nil in Ho].
  - cbn [foldl]. destruct (IH (ingest st o)) as [IHnd IHin]. split.
    + intros Hnd. apply IHnd. unfold ingest. cbn [st_currencies].
      by apply set_add_NoDup, set_add_NoDup.
    + intros c. rewrite IHin. unfold ingest at 1. cbn [st_currencies].
      rewrite !set_add_elem. split.
      * intros [[[? | ->] | ->] | (o' & Ho' & Hc)].
        -- by left.
        -- right. exists o. split; [by left | by left].
        -- right. exists o. split; [by left | by right].
        -- right. exists o'. split; [by right | done].
      * intros [? | (o' & Ho' & Hc)]; [by do 3 left |].
        apply elem_of_cons in Ho' as [-> | Ho'].
        -- left. destruct Hc as [-> | ->]; [left; by right | by right].
        -- right. by exists o'.
Qed.

Lemma constructed_currencies (s : list Price) (self : FavaPriceMap) c :
  constructed s self →
  c ∈ _currencies self ↔
  ∃ o, o ∈ s ∧ (c = price_currency o ∨ c = amount_currency (price_amount o)).
Proof.
  intros Hc. destruct (constructed_fields s self Hc) as [_ ->].
  destruct (foldl_ingest_currencies s ingest_start) as [_ ->]. split.
  - intros [Hin | ?]; [by apply elem_of_nil in Hin | done].
  - by right.
Qed.

(** X18.  The currency set holds exactly the currencies that occur in an
    observation, as its currency or as the currency of its amount, each
    once. *)
Theorem currency_universe (s : list Price) (self : FavaPriceMap) :
  constructed s self →
  NoDup (_currencies self)
  ∧ ∀ c, c ∈ _currencies self ↔
         ∃ o, o ∈ s ∧ (c = price_currency o
                       ∨ c = amount_currency (price_amount o)).
Proof.
  intros Hc. split; [| intros c; by apply constructed_currencies].
  destruct (constructed_fields s self Hc) as [_ ->].
  apply (foldl_ingest_currencies s ingest_start). constructor.
Qed.

(** X19.  Both currencies of every pair that has a series are in the
    currency set, so the loop over the set meets every possible third
    currency. *)
Theorem series_currencies_known (s : list Price) (self : FavaPriceMap)
    (base quote : Currency) :
  constructed s self → is_Some (get_all_prices self (base, quote)) →
  base ∈ _currencies self ∧ quote ∈ _currencies self.
Proof.
  intros Hc Hsome.
  apply (constructed_series_iff s self (base, quote) Hc) in Hsome
    as (o & Ho & Hk).
  rewrite !(constructed_currencies s self _ Hc).
  unfold reversed, price_pair in Hk. simpl in Hk.
  destruct Hk as [[= <- <-] | [[= <- <-] _]]; split; exists o; auto.
Qed.

(** ** Same-day collapse and unresolved lookups *)


Lemma via_currencies_dated_no_data
    (recur : BaseQuote → option date → result PointResult)
    (self : FavaPriceMap) base quote d currencies :
  (∀ c l1 l2 p, c ∈ currencies → c ≠ base → c ≠ quote →
     _map self !! (base, c) = Some l1 → _map self !! (c, quote) = Some l2 →
     p ∈ l1 → (p.1 ≤ d)%Z → recur (c, quote) (Some p.1) = Ok no_data) →
  via_currencies recur self base quote (Some d) currencies = Ok no_data.
Proof.
  induction currencies as [|currency rest IH]; intros Hrec; [done |].
  rewrite via_currencies_cons.
  assert (via_currencies recur self base quote (Some d) rest = Ok no_data)
    as Hrest.
  { apply IH. intros c l1 l2 p Hc. apply Hrec. by right. }
  destruct (String.eqb currency base || String.eqb currency quote) eqn:Hin;
    [done |].
  apply orb_false_iff in Hin as [Hb Hq].
  apply String.eqb_neq in Hb, Hq.
  destruct (_map self !! (base, currency)) as [l1|] eqn:H1; [| done].
  destruct (_map self !! (currency, quote)) as [l2|] eqn:H2; [| done].
  destruct (bisect_in_range_aux l1 d) as (k & -> & Hk).
  rewrite bind_Ok. destruct k as [|k]; [done |].
  cbn [Nat.eqb]. destruct (Hk (Nat.neq_succ_0 k)) as (p & Hp & Hpd).
  unfold list_getitem. rewrite Hp, bind_Ok.
  apply (Hrec currency l1 l2 p); try done; [by left |].
  by eapply list_elem_of_lookup_2.
Qed.

Lemma via_currencies_latest_no_data
    (recur : BaseQuote → option date → result PointResult)
    (self : FavaPriceMap) base quote currencies :
  series_nonempty self →
  (∀ c l1 l2 p1 p2, c ∈ currencies → c ≠ base → c ≠ quote →
     _map self !! (base, c) = Some l1 → _map self !! (c, quote) = Some l2 →
     last l1 = Some p1 → last l2 = Some p2 →
     (if (p1.1 <? p2.1)%Z then recur (c, quote) (Some p1.1)
      else recur (base, c) (Some p2.1)) = Ok no_data) →
  via_currencies recur self base quote None currencies = Ok no_data.
Proof.
  intros Hne. induction currencies as [|currency rest IH]; intros Hrec; [done |].
  rewrite via_currencies_cons.
  assert (via_currencies recur self base quote None rest = Ok no_data) as Hrest.
  { apply IH. intros c l1 l2 p1 p2 Hc. apply Hrec. by right. }
  destruct (String.eqb currency base || String.eqb currency quote) eqn:Hin;
    [done |].
  apply orb_false_iff in Hin as [Hb Hq].
  apply String.eqb_neq in Hb, Hq.
  destruct (_map self !! (base, currency)) as [l1|] eqn:H1; [| done].
  destruct (_map self !! (currency, quote)) as [l2|] eqn:H2; [| done].
  destruct (last_getitem l1 (Hne _ _ H1)) as (p1 & -> & Hp1).
  destruct (last_getitem l2 (Hne _ _ H2)) as (p2 & -> & Hp2).
  rewrite !bind_Ok.
  apply (Hrec currency l1 l2 p1 p2); try done. by left.
Qed.

(** C9.  No-data results are returned: on a constructed instance, for
    distinct currencies and every query date or none, [get_price_point]
    returns (it neither raises nor runs on) [(None, None)] or a point stored
    in a series.  It returns [(None, None)] on each path that does not
    resolve: the pair's own series only has points after the query date;
    there is neither a series for the pair nor a third currency with both
    legs; with a query date, for every third currency with both legs, the
    second leg has no point on or before any point of the first leg that is
    on or before the query date (in particular when the first leg has none);
    without a query date, for every third currency with both legs, the leg
    that is looked up has no point on or before the latest date of the other
    leg. *)
Theorem missing_data_is_returned (s : list Price) (self : FavaPriceMap)
    (base quote : Currency) (date : option date) (depth : nat) :
  constructed s self → base ≠ quote →
  ∃ v, get_price_point (S (S depth)) self (base, quote) date = Ok v
       ∧ (v = (None, None)
          ∨ ∃ k l p, _map self !! k = Some l ∧ p ∈ l ∧ v = (Some p.1, Some p.2))
       ∧ (∀ l d, _map self !! (base, quote) = Some l → date = Some d →
                 (∀ p, p ∈ l → (d < p.1)%Z) → v = (None, None))
       ∧ (_map self !! (base, quote) = None →
          (∀ c, c ∈ _currencies self → c ≠ base → c ≠ quote →
                _map self !! (base, c) = None ∨ _map self !! (c, quote) = None) →
          v = (None, None))
       ∧ (∀ d, _map self !! (base, quote) = None → date = Some d →
            (∀ c l1 l2, c ∈ _currencies self → c ≠ base → c ≠ quote →
               _map self !! (base, c) = Some l1 →
               _map self !! (c, quote) = Some l2 →
               ∀ p, p ∈ l1 → (p.1 ≤ d)%Z → ∀ q, q ∈ l2 → (p.1 < q.1)%Z) →
            v = (None, None))
       ∧ (_map self !! (base, quote) = None → date = None →
            (∀ c l1 l2 p1 p2, c ∈ _currencies self → c ≠ base → c ≠ quote →
               _map self !! (base, c) = Some l1 →
               _map self !! (c, quote) = Some l2 →
               last l1 = Some p1 → last l2 = Some p2 →
               if (p1.1 <? p2.1)%Z then ∀ q, q ∈ l2 → (p1.1 < q.1)%Z
               else ∀ q, q ∈ l1 → (p2.1 < q.1)%Z) →
            v = (None, None)).
Proof.
  intros Hc Hne.
  pose proof (constructed_series_nonempty s self Hc) as Hnonempty.
  destruct (get_price_point_returns self depth base quote date Hnonempty Hne)
    as (v & Hv & Hshape).
  exists v. split_and!; [done | | | | |].
  - destruct Hshape as [-> | [[e r] ->]]; [by left | right].
    unfold found in Hv. cbn [fst snd] in Hv.
    destruct (_map self !! (base, quote)) as [l|] eqn:Hl.
    + exists (base, quote), l, (e, r). split_and!; [done | | done].
      by apply (direct_lookup_member (S depth) self base quote l date).
    + destruct (fallback_leg_point depth self base quote e r date Hne Hl Hv)
        as (C & l1 & l2 & _ & _ & _ & H1 & H2 & [Hin | [_ Hin]]).
      * by exists (C, quote), l2, (e, r).
      * by exists (base, C), l1, (e, r).
  - intros l d Hl -> Hall.
    rewrite (get_price_point_direct_before _ self base quote l d) in Hv by done.
    by injection Hv.
  - intros Hl Hlegs.
    rewrite get_price_point_fallback in Hv by done.
    rewrite (via_currencies_no_legs self) in Hv by done. by injection Hv.
  - intros d Hl -> Hlegs.
    rewrite get_price_point_fallback in Hv by done.
    rewrite via_currencies_dated_no_data in Hv; [by injection Hv |].
    intros c l1 l2 p Hcin Hcb Hcq H1 H2 Hp Hpd.
    apply (get_price_point_direct_before depth self c quote l2 p.1);
      [done | done |].
    intros q Hq. by apply (Hlegs c l1 l2 Hcin Hcb Hcq H1 H2 p Hp Hpd q).
  - intros Hl -> Hlegs.
    rewrite get_price_point_fallback in Hv by done.
    rewrite via_currencies_latest_no_data in Hv; [by injection Hv | done |].
    intros c l1 l2 p1 p2 Hcin Hcb Hcq H1 H2 Hp1 Hp2.
    specialize (Hlegs c l1 l2 p1 p2 Hcin Hcb Hcq H1 H2 Hp1 Hp2).
    destruct (p1.1 <? p2.1)%Z.
    + by apply (get_price_point_direct_before depth self c quote l2 p1.1).
    + apply (get_price_point_direct_before depth self base c l1 p2.1);
        [congruence | done | done].
Qed.

End MoreFacts.

(** ** The request helpers *)

Section request_facts.

Lemma jump_qs_dict_cons qs_dict key values rest :
  jump_qs_dict qs_dict ((key, values) :: rest) =
  jump_qs_dict (if bool_decide (values = [""%string]) then delete key qs_dict
                else <[key := values]> qs_dict) rest.
Proof. reflexivity. Qed.

Lemma jump_qs_dict_other args_lists : ∀ qs_dict k,
  k ∉ args_lists.*1 → jump_qs_dict qs_dict args_lists !! k = qs_dict !! k.
Proof.
  induction args_lists as [|[key values] rest IH]; intros qs_dict k Hk; [done |].
  rewrite fmap_cons in Hk. apply not_elem_of_cons in Hk as [Hne Hk].
  rewrite jump_qs_dict_cons, IH by done. simpl in Hne.
  destruct (bool_decide (values = [""%string]));
    [by rewrite lookup_delete_ne | by rewrite lookup_insert_ne].
Qed.

(** X20.  The parameters of a jump replace those of the referrer: a key sent
    with the single empty value is removed, a key sent with other values
    gets exactly these values, and every key not sent keeps the values of
    the referrer. *)
Theorem jump_replaces_parameters (qs_dict : gmap string (list string))
    (args_lists : list (string * list string)) (k : string) :
  NoDup (args_lists.*1) →
  ((k, [""%string]) ∈ args_lists → jump_qs_dict qs_dict args_lists !! k = None)
  ∧ (∀ values, (k, values) ∈ args_lists → values ≠ [""%string] →
               jump_qs_dict qs_dict args_lists !! k = Some values)
  ∧ (k ∉ args_lists.*1 → jump_qs_dict qs_dict args_lists !! k = qs_dict !! k).
Proof.
  intros Hnd. split_and!; [| | apply jump_qs_dict_other].
  - revert qs_dict. induction args_lists as [|[key values] rest IH];
      intros qs_dict Hin; [by apply elem_of_nil in Hin |].
    rewrite fmap_cons in Hnd. apply NoDup_cons in Hnd as [Hkey Hnd].
    rewrite jump_qs_dict_cons.
    apply elem_of_cons in Hin as [[= <- <-] | Hin]; [| by apply IH].
    rewrite jump_qs_dict_other by done.
    rewrite bool_decide_eq_true_2 by done. apply lookup_delete_eq.
  - intros vs. revert qs_dict. induction args_lists as [|[key values] rest IH];
      intros qs_dict Hin Hvs; [by apply elem_of_nil in Hin |].
    rewrite fmap_cons in Hnd. apply NoDup_cons in Hnd as [Hkey Hnd].
    rewrite jump_qs_dict_cons.
    apply elem_of_cons in Hin as [[= <- <-] | Hin]; [| by apply IH].
    rewrite jump_qs_dict_other by done.
    rewrite bool_decide_eq_false_2 by done. apply lookup_insert_eq.
Qed.

Lemma inject_loop_lookup (request_args : gmap string string) names :
  ∀ (values : gmap string string) k,
  foldl (λ values name,
           if bool_decide (values !! name = None) then
             match request_args !! name with
             | Some val => <[name := val]> values
             | None => values
             end
           else values)
        values names !! k
  = match values !! k with
    | Some v => Some v
    | None => if bool_decide (k ∈ names) then request_args !! k else None
    end.
Proof.
  induction names as [|name names IH]; intros values k.
  - simpl. by destruct (values !! k).
  - cbn [foldl]. rewrite IH. destruct (decide (name = k)) as [-> | Hne].
    + rewrite (bool_decide_eq_true_2 (k ∈ k :: names)) by by left.
      destruct (values !! k) as [v|] eqn:Hk.
      * rewrite bool_decide_eq_false_2 by congruence. by rewrite Hk.
      * rewrite bool_decide_eq_true_2 by done.
        destruct (request_args !! k) as [val|] eqn:Hval.
        -- by rewrite lookup_insert_eq.
        -- rewrite Hk. by destruct (bool_decide (k ∈ names)).
    + assert (bool_decide (k ∈ name :: names) = bool_decide (k ∈ names)) as ->.
      { apply bool_decide_ext. rewrite elem_of_cons.
        split; [intros [-> | ?]; done | by right]. }
      case_bool_decide; [| done].
      destruct (request_args !! name); [| done].
      by rewrite lookup_insert_ne.
Qed.

Lemma inject_filters_lookup expecting_bfile slug request_args endpoint
    (values : gmap string string) k :
  _inject_filters expecting_bfile slug request_args endpoint values !! k
  = match values !! k with
    | Some v => Some v
    | None =>
        if bool_decide (k = "bfile"%string) then
          if expecting_bfile endpoint then slug else None
        else if bool_decide (endpoint ∈ ["static"; "index"]%string) then None
        else if bool_decide (k ∈ filter_names) then request_args !! k
        else None
    end.
Proof.
  unfold _inject_filters.
  set (values1 :=
         if bool_decide (values !! "bfile"%string = None) && expecting_bfile endpoint
         then match slug with
              | Some s => <["bfile"%string := s]> values
              | None => values
              end
         else values).
  assert (values1 !! k
          = match values !! k with
            | Some v => Some v
            | None => if bool_decide (k = "bfile"%string)
                      then if expecting_bfile endpoint then slug else None
                      else None
            end) as H1.
  { unfold values1. destruct (decide (k = "bfile"%string)) as [-> | Hk].
    - rewrite (bool_decide_eq_true_2 ("bfile"%string = "bfile"%string)) by done.
      destruct (values !! "bfile"%string) as [v|] eqn:Hb.
      + by rewrite bool_decide_eq_false_2 by done.
      + rewrite bool_decide_eq_true_2 by done. simpl.
        destruct (expecting_bfile endpoint); [| done].
        destruct slug; [by rewrite lookup_insert_eq | done].
    - rewrite (bool_decide_eq_false_2 (k = "bfile"%string)) by done.
      destruct (_ && _); [destruct slug |];
        rewrite ?lookup_insert_ne by done; by destruct (values !! k). }
  destruct (bool_decide (endpoint ∈ ["static"; "index"]%string)).
  - rewrite H1. by repeat case_match.
  - rewrite inject_loop_lookup, H1.
    destruct (values !! k); [done |].
    destruct (decide (k = "bfile"%string)) as [-> | Hk].
    + rewrite (bool_decide_eq_true_2 ("bfile"%string = "bfile"%string)) by done.
      rewrite (bool_decide_eq_false_2 ("bfile"%string ∈ filter_names)).
      * by repeat case_match.
      * unfold filter_names. rewrite !elem_of_cons, elem_of_nil.
        intros [? | [? | [? | [? | [? | []]]]]]; discriminate.
    + by rewrite (bool_decide_eq_false_2 (k = "bfile"%string)) by done.
Qed.

(** X21.  [_inject_filters] only adds: a value the caller passed is never
    replaced, and a second application changes nothing. *)
Theorem inject_filters_keeps_values (expecting_bfile : string → bool)
    (slug : option string) (request_args : gmap string string)
    (endpoint : string) (values : gmap string string) :
  (∀ k v, values !! k = Some v →
          _inject_filters expecting_bfile slug request_args endpoint values !! k
          = Some v)
  ∧ _inject_filters expecting_bfile slug request_args endpoint
      (_inject_filters expecting_bfile slug request_args endpoint values)
    = _inject_filters expecting_bfile slug request_args endpoint values.
Proof.
  split.
  - intros k v Hk. by rewrite inject_filters_lookup, Hk.
  - apply map_eq. intros k. rewrite (inject_filters_lookup _ _ _ _ (_inject_filters _ _ _ _ _)).
    rewrite inject_filters_lookup.
    destruct (values !! k); [done |]. by repeat case_match.
Qed.

End request_facts.

(** ** The further results on the instances *)

Local Open Scope string_scope.

(** Membership in a stream written out: one case per observation. *)
Ltac each_observation o Ho :=
  repeat (apply elem_of_cons in Ho as [-> | Ho]; [try discriminate |]);
  try (by apply elem_of_nil in Ho).

Lemma keep_last_per_day_idempotent_witness :
  _keep_last_per_day [(1%Z, 4%Q); (2%Z, 5%Q)] = Ok [(1%Z, 4%Q); (2%Z, 5%Q)].
Proof.
  apply (keep_last_per_day_idempotent [(1%Z, 2%Q); (1%Z, 4%Q); (2%Z, 5%Q)]).
  - simpl. repeat constructor; lia.
  - reflexivity.
Defined.

Lemma bisect_counts_witness :
  bisect (mkDateKeyWrapper [(10%Z, 2%Q); (20%Z, 4%Q); (30%Z, 5%Q)]) 25%Z
  = Ok (length (filter (λ p : date * Q, (p.1 ≤ 25)%Z)
                       [(10%Z, 2%Q); (20%Z, 4%Q); (30%Z, 5%Q)])).
Proof.
  apply (bisect_counts [(10%Z, 2%Q); (20%Z, 4%Q); (30%Z, 5%Q)] 25%Z).
  simpl. repeat constructor; lia.
Defined.

Lemma forward_pairs_one_direction_witness :
  (("USD", "EUR") ∈ _forward_pairs (index_of three_day_stream) →
   ("EUR", "USD") ∉ _forward_pairs (index_of three_day_stream))
  ∧ (("USD", "USD") ∉ _forward_pairs (index_of three_day_stream)).
Proof.
  apply (forward_pairs_one_direction three_day_stream).
  apply index_of_constructed.
Defined.

Lemma three_day_forward_pairs :
  _forward_pairs (index_of three_day_stream) = [("USD", "EUR")].
Proof. vm_compute. reflexivity. Defined.

Lemma forward_pair_has_series_witness :
  0 < observation_count three_day_stream ("USD", "EUR")
  ∧ ∃ l, get_all_prices (index_of three_day_stream) ("USD", "EUR") = Some l
         ∧ l ≠ [].
Proof.
  apply (forward_pair_has_series three_day_stream).
  - apply index_of_constructed.
  - rewrite three_day_forward_pairs. by left.
Defined.

Lemma commodity_pairs_NoDup_witness :
  NoDup (commodity_pairs (index_of legs_stream) ["A"; "C"]).
Proof.
  apply (commodity_pairs_NoDup legs_stream). apply index_of_constructed.
Defined.

Lemma commodity_pairs_operating_set_witness :
  commodity_pairs (index_of legs_stream) ["A"; "C"]
  = commodity_pairs (index_of legs_stream) ["C"; "A"; "A"].
Proof.
  apply commodity_pairs_operating_set.
  intros c. rewrite !elem_of_cons, !elem_of_nil. tauto.
Defined.

Lemma series_exists_iff_witness :
  is_Some (get_all_prices (index_of legs_stream) ("B", "C")) ↔
  ∃ o, o ∈ legs_stream
       ∧ (price_pair o = ("B", "C")
          ∨ (reversed (price_pair o) = ("B", "C")
             ∧ dec_eqb (number (price_amount o)) ZERO = false)).
Proof.
  apply (series_exists_iff legs_stream). apply index_of_constructed.
Defined.

Lemma stored_points_observed_witness :
  ∃ o, o ∈ legs_stream ∧ price_date o = 1%Z
       ∧ ((price_pair o = ("B", "C") ∧ (1 # 4)%Q = number (price_amount o))
          ∨ (reversed (price_pair o) = ("B", "C")
             ∧ dec_eqb (number (price_amount o)) ZERO = false
             ∧ (1 # 4)%Q = dec_div ONE (number (price_amount o)))).
Proof.
  apply (stored_points_observed legs_stream (index_of legs_stream) ("B", "C")
           [(1%Z, (1 # 4)%Q)] (1%Z, (1 # 4)%Q)).
  - apply index_of_constructed.
  - vm_compute. reflexivity.
  - by left.
Defined.

Lemma inverse_series_witness :
  get_all_prices (index_of three_day_stream) ("EUR", "USD")
  = fmap (M:=list) inverse_point
      <$> get_all_prices (index_of three_day_stream) ("USD", "EUR").
Proof.
  apply (inverse_series three_day_stream).
  - apply index_of_constructed.
  - discriminate.
  - intros o Ho. each_observation o Ho.
  - intros o Ho _. each_observation o Ho; reflexivity.
Defined.

Lemma latest_price_is_last_ingested_witness :
  get_price_point 1 (index_of unordered_stream) ("A", "B") None
  = Ok (Some 3%Z, Some 1%Q).
Proof.
  apply (latest_price_is_last_ingested unordered_stream
           (index_of unordered_stream) "A" "B" (3%Z, 1%Q) 0).
  - apply index_of_constructed.
  - discriminate.
  - vm_compute. reflexivity.
Defined.

Lemma three_day_series :
  _map (index_of three_day_stream) !! ("USD", "EUR")
  = Some [(10%Z, 2%Q); (20%Z, 4%Q); (30%Z, 5%Q)].
Proof. vm_compute. reflexivity. Defined.

Lemma direct_lookup_most_recent_witness :
  (get_price_point 1 (index_of three_day_stream) ("USD", "EUR") (Some 25%Z)
   = Ok (None, None)
   ∧ ∀ q, q ∈ [(10%Z, 2%Q); (20%Z, 4%Q); (30%Z, 5%Q)] → (25 < q.1)%Z)
  ∨ ∃ p, get_price_point 1 (index_of three_day_stream) ("USD", "EUR") (Some 25%Z)
         = Ok (Some p.1, Some p.2)
         ∧ p ∈ [(10%Z, 2%Q); (20%Z, 4%Q); (30%Z, 5%Q)] ∧ (p.1 ≤ 25)%Z
         ∧ ∀ q, q ∈ [(10%Z, 2%Q); (20%Z, 4%Q); (30%Z, 5%Q)] →
                (q.1 ≤ 25)%Z → (q.1 ≤ p.1)%Z.
Proof.
  apply (direct_lookup_most_recent (index_of three_day_stream) "USD" "EUR").
  - discriminate.
  - apply three_day_series.
  - simpl. repeat constructor; lia.
Defined.

Lemma late_date_is_latest_witness :
  get_price_point 1 (index_of three_day_stream) ("USD", "EUR") (Some 40%Z)
  = get_price_point 1 (index_of three_day_stream) ("USD", "EUR") None.
Proof.
  apply (late_date_is_latest (index_of three_day_stream) "USD" "EUR"
           [(10%Z, 2%Q); (20%Z, 4%Q); (30%Z, 5%Q)] (30%Z, 5%Q)).
  - discriminate.
  - apply three_day_series.
  - simpl. repeat constructor; lia.
  - reflexivity.
  - simpl. lia.
Defined.

Lemma lookup_not_after_query_witness :
  get_price_point 2 (index_of legs_stream) ("A", "B") (Some 5%Z)
  = Ok (Some 1%Z, Some 4%Q)
  ∧ (1 ≤ 5)%Z.
Proof.
  assert (get_price_point 2 (index_of legs_stream) ("A", "B") (Some 5%Z)
          = Ok (Some 1%Z, Some 4%Q)) as Hpoint by (vm_compute; reflexivity).
  split; [exact Hpoint |].
  exact (lookup_not_after_query 2 (index_of legs_stream) ("A", "B") 5%Z 1%Z
           (Some 4%Q) Hpoint).
Defined.

Lemma fallback_returns_leg_point_witness :
  ∃ C l1 l2, C ∈ _currencies (index_of legs_stream) ∧ C ≠ "A" ∧ C ≠ "B"
             ∧ _map (index_of legs_stream) !! ("A", C) = Some l1
             ∧ _map (index_of legs_stream) !! (C, "B") = Some l2
             ∧ ((1%Z, 4%Q) ∈ l2 ∨ (Some 5%Z = None ∧ (1%Z, 4%Q) ∈ l1)).
Proof.
  apply (fallback_returns_leg_point 0 (index_of legs_stream) "A" "B" 1%Z 4%Q
           (Some 5%Z)).
  - discriminate.
  - vm_compute. reflexivity.
  - vm_compute. reflexivity.
Defined.

Lemma currency_universe_witness :
  NoDup (_currencies (index_of legs_stream))
  ∧ ∀ c, c ∈ _currencies (index_of legs_stream) ↔
         ∃ o, o ∈ legs_stream
              ∧ (c = price_currency o ∨ c = amount_currency (price_amount o)).
Proof.
  apply (currency_universe legs_stream). apply index_of_constructed.
Defined.

Lemma series_currencies_known_witness :
  "B" ∈ _currencies (index_of legs_stream)
  ∧ "C" ∈ _currencies (index_of legs_stream).
Proof.
  apply (series_currencies_known legs_stream).
  - apply index_of_constructed.
  - exists [(1%Z, (1 # 4)%Q)]. vm_compute. reflexivity.
Defined.

(** The referrer [/example/page?param1=123&param2=456] and the jump
    [/jump?param1=abc&param2=]. *)
Lemma jump_replaces_parameters_witness :
  ((("param1", [""]) ∈ [("param1", ["abc"]); ("param2", [""])] →
    jump_qs_dict {["param1" := ["123"]; "param2" := ["456"]]}
      [("param1", ["abc"]); ("param2", [""])] !! "param1" = None)
  ∧ (∀ values, ("param1", values) ∈ [("param1", ["abc"]); ("param2", [""])] →
       values ≠ [""] →
       jump_qs_dict {["param1" := ["123"]; "param2" := ["456"]]}
         [("param1", ["abc"]); ("param2", [""])] !! "param1" = Some values)
  ∧ ("param1" ∉ [("param1", ["abc"]); ("param2", [""])].*1 →
     jump_qs_dict {["param1" := ["123"]; "param2" := ["456"]]}
       [("param1", ["abc"]); ("param2", [""])] !! "param1"
     = ({["param1" := ["123"]; "param2" := ["456"]]}
          : gmap string (list string)) !! "param1")).
Proof.
  apply (jump_replaces_parameters
           {["param1" := ["123"]; "param2" := ["456"]]}
           [("param1", ["abc"]); ("param2", [""])] "param1").
  simpl. repeat constructor; rewrite ?elem_of_cons, ?elem_of_nil;
    intros H; decompose [or] H; try discriminate; done.
Defined.

(** The example of the docstring of [jump]. *)
Example jump_docstring_example :
  jump_qs_dict {["param1" := ["123"]; "param2" := ["456"]]}
    [("param1", ["abc"])]
  = {["param1" := ["abc"]; "param2" := ["456"]]}.
Proof. vm_compute. reflexivity. Qed.



Lemma stale_leg_currencies :
  _currencies (index_of stale_leg_stream) = ["A"; "C"; "B"].
Proof. vm_compute. reflexivity. Defined.

Lemma stale_leg_first :
  _map (index_of stale_leg_stream) !! ("A", "C") = Some [(1%Z, 2%Q)].
Proof. vm_compute. reflexivity. Defined.

Lemma stale_leg_second :
  _map (index_of stale_leg_stream) !! ("C", "B") = Some [(3%Z, 4%Q)].
Proof. vm_compute. reflexivity. Defined.

(** On [stale_leg_stream] the first leg [(A, C)] has a point on day 1 and the
    second leg [(C, B)] only one on day 3: the query of [(A, B)] at day 5
    finds the pivot date 1 and nothing on the second leg. *)
Lemma missing_data_is_returned_witness :
  get_price_point 2 (index_of stale_leg_stream) ("A", "B") (Some 5%Z)
  = Ok (None, None).
Proof.
  assert ("A" ≠ "B") as Hne by discriminate.
  destruct (missing_data_is_returned stale_leg_stream
              (index_of stale_leg_stream) "A" "B" (Some 5%Z) 0
              (index_of_constructed stale_leg_stream) Hne)
    as (v & Hv & _ & _ & _ & Hlegs & _).
  rewrite Hv. f_equal. apply (Hlegs 5%Z).
  - vm_compute. reflexivity.
  - reflexivity.
  - intros c l1 l2 Hc Hb Hq H1 H2 p Hp Hpd q Hq'.
    rewrite stale_leg_currencies in Hc.
    apply elem_of_cons in Hc as [Hc | Hc]; [exfalso; exact (Hb Hc) |].
    apply elem_of_cons in Hc as [Hc | Hc].
    + subst c. rewrite stale_leg_first in H1. rewrite stale_leg_second in H2.
      injection H1 as <-. injection H2 as <-.
      apply list_elem_of_singleton in Hp. apply list_elem_of_singleton in Hq'.
      subst p q. simpl. lia.
    + apply elem_of_cons in Hc as [Hc | Hc]; [exfalso; exact (Hq Hc) |].
      apply elem_of_nil in Hc. contradiction.
Defined.
